(** * Task DAG store of the Intent UI Mapping agent

    A shallow embedding of [models/task_dag.py] (the entity records,
    [TaskDAG.validate_acyclic], [TaskDAG.can_execute]) and of the task tools of
    [agent.py] ([create_task], [update_task_status], [update_task],
    [delete_task]), followed by the properties of the store.

    The task map [ctx.deps.state.task_dag] is a Python [dict] from task id to
    [TaskNode]; it is modelled as a [gmap string TaskNode].  Every tool builds
    its records from fresh arguments, so no two keys share a record and the
    map can be treated as a value.

    [validate_acyclic] runs a recursive traversal, so what it does on a large
    graph depends on the interpreter: on how deep it lets calls nest and on
    the order in which the dict yields its keys, which decides how long a
    path the traversal has to follow before it meets marked nodes.  Neither
    is fixed by the source, so both are taken from an [Interpreter] that
    [validate_acyclic], [create_task] and [update_task] get as an argument.
    As long as the graph has fewer nodes than the interpreter allows nested
    calls, the order only influences which node of a cycle is met first,
    never whether one is met.  The neighbour sets are iterated in the order
    of [elements].

    The rest of [agent.py] that computes something is embedded as well: the
    meaning tools over an insertion-ordered dictionary (the order of the
    index shows in what [search_meanings] returns), [append_history_item]
    over the list of history items, and [_load_gateway_model] over the
    environment.  Readings of the clock are arguments of the tools that make
    them; [str.strip] and [str.lower] are parameters of the meaning tools. *)

From stdpp Require Import gmap strings list fin_maps relations pretty.

#[local] Set Warnings "-clear-no-such-hyp".

Open Scope string_scope.

(** ** Entities ([models/task_dag.py]) *)

Inductive TaskStatus := pending | in_progress | completed | blocked | skipped.
Inductive StepStatus := step_pending | step_in_progress | step_completed | step_skipped.
Inductive DependencyType := required | optional | soft.
Inductive SourceType := documentation | file | url | meaning_index | external.

#[global] Instance TaskStatus_eq_dec : EqDecision TaskStatus.
Proof. solve_decision. Defined.
#[global] Instance StepStatus_eq_dec : EqDecision StepStatus.
Proof. solve_decision. Defined.
#[global] Instance DependencyType_eq_dec : EqDecision DependencyType.
Proof. solve_decision. Defined.
#[global] Instance SourceType_eq_dec : EqDecision SourceType.
Proof. solve_decision. Defined.

Record Step := mkStep {
  step_id : string;
  step_description : string;
  step_status : StepStatus;
  step_output : option string
}.

Record Dependency := mkDependency {
  from_task : string;
  to : string;
  type : DependencyType
}.

Record Source := mkSource {
  source_id : string;
  source_type : SourceType;
  source_reference : string;
  source_description : option string
}.

Record TaskNode := mkTaskNode {
  id : string;
  title : string;
  description : string;
  status : TaskStatus;
  steps : list Step;
  sources : list Source;
  dependencies : list Dependency
}.

#[global] Instance Step_eq_dec : EqDecision Step.
Proof. solve_decision. Defined.
#[global] Instance Dependency_eq_dec : EqDecision Dependency.
Proof. solve_decision. Defined.
#[global] Instance Source_eq_dec : EqDecision Source.
Proof. solve_decision. Defined.
#[global] Instance TaskNode_eq_dec : EqDecision TaskNode.
Proof. solve_decision. Defined.

(** The task map, [dict[str, TaskNode]]. *)
Abbreviation TaskMap := (gmap string TaskNode).

(** The adjacency structure built by [validate_acyclic],
    [dict[str, set[str]]]. *)
Abbreviation Graph := (gmap string (gset string)).

(** ** Exceptions

    The tools raise [ValueError] with four different messages; the
    constructors name them after the failure they report.  [RecursionError]
    is what the interpreter raises when the calls of [visit] nest deeper than
    it allows. *)

Inductive Exn :=
| AlreadyExists (task_id : string)
| NotFound (task_id : string)
| CycleDetected
| DependenciesUnsatisfied
| RecursionError.

#[global] Instance Exn_eq_dec : EqDecision Exn.
Proof. solve_decision. Defined.

Definition message (e : Exn) : string :=
  match e with
  | AlreadyExists task_id => "Task '" ++ task_id ++ "' already exists."
  | NotFound task_id => "Task '" ++ task_id ++ "' not found."
  | CycleDetected => "Cyclic dependency detected in Task DAG."
  | DependenciesUnsatisfied => "Task dependencies are not satisfied."
  | RecursionError => "maximum recursion depth exceeded"
  end.

(** ** [TaskDAG.validate_acyclic] *)

(** [graph.get(node_id, set())] *)
Definition neighbors (graph : Graph) (node_id : string) : gset string :=
  default ∅ (graph !! node_id).

(** [graph.setdefault(dependency.from_task, set()).add(dependency.to)] *)
Definition add_edge (graph : Graph) (dependency : Dependency) : Graph :=
  <[from_task dependency := neighbors graph (from_task dependency) ∪ {[to dependency]}]> graph.

(** The graph of lines 49-52: one key with an empty set per task id, then
    every dependency of every record filed under its own [from_task]. *)
Definition build_graph (tasks : TaskMap) : Graph :=
  foldl (λ graph task, foldl add_edge graph (dependencies task))
        ((λ _, ∅) <$> tasks)
        (map_to_list tasks).*2.

(** The two mark sets of the traversal. *)
Record Marks := mkMarks {
  visited : gset string;
  visiting : gset string
}.

(** A [for] loop whose body may raise: the first exception ends the loop. *)
Fixpoint for_each {A S : Type} (body : A → S → Exn + S) (l : list A) (s : S) : Exn + S :=
  match l with
  | [] => inr s
  | x :: l' =>
      match body x s with
      | inl e => inl e
      | inr s' => for_each body l' s'
      end
  end.

(** [visit], lines 57-66.  [depth] bounds the nesting of the calls. *)
Fixpoint visit (depth : nat) (graph : Graph) (node_id : string) (m : Marks) : Exn + Marks :=
  match depth with
  | 0 => inl RecursionError
  | S depth' =>
      if decide (node_id ∈ visiting m) then inl CycleDetected
      else if decide (node_id ∈ visited m) then inr m
      else
        match for_each (visit depth' graph) (elements (neighbors graph node_id))
                       (mkMarks (visited m) (visiting m ∪ {[node_id]})) with
        | inl e => inl e
        | inr m' => inr (mkMarks (visited m' ∪ {[node_id]}) (visiting m' ∖ {[node_id]}))
        end
  end.

(** Every string the traversal can meet: the keys of the graph and the members
    of its neighbour sets. *)
Definition nodes (graph : Graph) : gset string :=
  dom graph ∪ ⋃ (map_to_list graph).*2.

(** What the traversal takes from the interpreter it runs on.  [visit] has no
    bound of its own: it nests one call per node of the path it follows and
    the interpreter raises [RecursionError] when the calls nest deeper than
    it allows, a constant that does not grow with the graph.
    [recursion_limit] is the number of nested calls of [visit] that are
    allowed.  [key_order] is the order in which [for node_id in graph] yields
    the keys, the insertion order of the dict, which a [gmap] does not
    record: it is given as a rearrangement of [elements (dom graph)]. *)
Record Interpreter := mkInterpreter {
  recursion_limit : nat;
  key_order : list string → list string;
  key_order_perm : ∀ keys, key_order keys ≡ₚ keys
}.

(** An interpreter for running examples: the default limit of CPython, 1000,
    and the keys in the order of [elements]. *)
Definition reference_interpreter : Interpreter :=
  mkInterpreter 1000 (λ keys, keys) (λ keys, reflexivity keys).

(** [validate_acyclic], lines 48-69: it returns nothing or raises, the cycle
    error of line 59 or the [RecursionError] of the interpreter. *)
Definition validate_acyclic (py : Interpreter) (tasks : TaskMap) : Exn + unit :=
  let graph := build_graph tasks in
  match for_each (visit (recursion_limit py) graph) (key_order py (elements (dom graph)))
                 (mkMarks ∅ ∅) with
  | inl e => inl e
  | inr _ => inr ()
  end.

(** The graph of the map has fewer nodes than the interpreter allows nested
    calls: the traversal cannot run out of depth, in whatever order it goes. *)
Definition fits_recursion_limit (py : Interpreter) (tasks : TaskMap) : Prop :=
  size (nodes (build_graph tasks)) < recursion_limit py.

#[global] Instance fits_recursion_limit_dec py tasks :
  Decision (fits_recursion_limit py tasks).
Proof. unfold fits_recursion_limit. apply _. Defined.

(** ** [TaskDAG.can_execute] *)

(** The body of the loop of lines 75-80 for one dependency: [true] when the
    dependency lets the loop go on. *)
Definition dependency_satisfied (tasks : TaskMap) (dependency : Dependency) : bool :=
  if decide (type dependency = soft) then true
  else
    match tasks !! from_task dependency with
    | None => false
    | Some upstream => bool_decide (status upstream = completed)
    end.

(** [can_execute], lines 71-81: [False] for a missing record and at the first
    dependency that fails the test, [True] when the loop runs to its end. *)
Definition can_execute (tasks : TaskMap) (task_id : string) : bool :=
  match tasks !! task_id with
  | None => false
  | Some task => forallb (dependency_satisfied tasks) (dependencies task)
  end.

(** ** The task tools ([agent.py])

    A tool reads and mutates [ctx.deps.state.task_dag] and either returns or
    raises; what it has written before raising stays written.  [Tool A] is the
    state-and-exception monad that says so: the final task map comes back
    with the exception as well as with the result. *)

Definition Tool (A : Type) : Type := TaskMap → (Exn + A) * TaskMap.

Definition ret {A} (a : A) : Tool A := λ task_dag, (inr a, task_dag).

Definition bind {A B} (m : Tool A) (k : A → Tool B) : Tool B :=
  λ task_dag,
    match m task_dag with
    | (inl e, task_dag') => (inl e, task_dag')
    | (inr a, task_dag') => k a task_dag'
    end.

Definition raise {A} (e : Exn) : Tool A := λ task_dag, (inl e, task_dag).

(** [ctx.deps.state.task_dag] read as a value. *)
Definition get_task_dag : Tool TaskMap := λ task_dag, (inr task_dag, task_dag).

(** [ctx.deps.state.task_dag[task_id] = task] *)
Definition set_item (task_id : string) (task : TaskNode) : Tool unit :=
  λ task_dag, (inr (), <[task_id := task]> task_dag).

(** [ctx.deps.state.task_dag.pop(task_id)] on a key that is present. *)
Definition pop (task_id : string) : Tool unit :=
  λ task_dag, (inr (), delete task_id task_dag).

(** A loop over [task_dag.values()] that reassigns a field of each record. *)
Definition for_values (f : TaskNode → TaskNode) : Tool unit :=
  λ task_dag, (inr (), f <$> task_dag).

(** [TaskDAG(tasks=ctx.deps.state.task_dag).validate_acyclic()] *)
Definition check_acyclic (py : Interpreter) : Tool unit :=
  λ task_dag, (validate_acyclic py task_dag, task_dag).

(** [_snapshot(ctx.deps.state)]: the event carries the state itself. *)
Definition _snapshot : Tool TaskMap := get_task_dag.

Declare Scope tool_scope.
Delimit Scope tool_scope with tool.
Notation "x <- m ;; k" := (bind m (λ x, k))
  (at level 100, m at next level, right associativity) : tool_scope.
Notation "m ;; k" := (bind m (λ _, k))
  (at level 100, right associativity) : tool_scope.

(** Field assignments on a record. *)
Definition set_title (task : TaskNode) (v : string) : TaskNode :=
  mkTaskNode (id task) v (description task) (status task)
             (steps task) (sources task) (dependencies task).
Definition set_description (task : TaskNode) (v : string) : TaskNode :=
  mkTaskNode (id task) (title task) v (status task)
             (steps task) (sources task) (dependencies task).
Definition set_status (task : TaskNode) (v : TaskStatus) : TaskNode :=
  mkTaskNode (id task) (title task) (description task) v
             (steps task) (sources task) (dependencies task).
Definition set_steps (task : TaskNode) (v : list Step) : TaskNode :=
  mkTaskNode (id task) (title task) (description task) (status task)
             v (sources task) (dependencies task).
Definition set_sources (task : TaskNode) (v : list Source) : TaskNode :=
  mkTaskNode (id task) (title task) (description task) (status task)
             (steps task) v (dependencies task).
Definition set_dependencies (task : TaskNode) (v : list Dependency) : TaskNode :=
  mkTaskNode (id task) (title task) (description task) (status task)
             (steps task) (sources task) v.

(** Python's [x or y] on an optional string: [None] and the empty string are
    falsy. *)
Definition str_or (x : option string) (y : string) : string :=
  match x with
  | None => y
  | Some s => if decide (s = "") then y else s
  end.

(** Python's [x or []] on an optional list. *)
Definition list_or_empty {A} (x : option (list A)) : list A := default [] x.

(** [if v is not None: assign v] and, for a status (never the empty string),
    [if v: assign v]. *)
Definition assign_if_supplied {A} (set : TaskNode → A → TaskNode)
    (v : option A) (task : TaskNode) : TaskNode :=
  match v with
  | None => task
  | Some a => set task a
  end.

Section Tools.
Local Open Scope tool_scope.

(** [create_task], lines 96-121.  An omitted [status] is [None] here and takes
    the default of the signature. *)
Definition create_task (py : Interpreter) (task_id title description : string)
    (status : option TaskStatus) (dependencies : option (list Dependency))
    (sources : option (list Source)) (steps : option (list Step)) : Tool TaskMap :=
  task_dag <- get_task_dag ;;
  if decide (task_id ∈ dom task_dag) then raise (AlreadyExists task_id)
  else
    let task := mkTaskNode task_id title description (default pending status)
                  (list_or_empty steps) (list_or_empty sources)
                  (list_or_empty dependencies) in
    set_item task_id task ;;
    check_acyclic py ;;
    _snapshot.

(** [update_task_status], lines 124-139. *)
Definition update_task_status (task_id : string) (new_status : TaskStatus) : Tool TaskMap :=
  task_dag <- get_task_dag ;;
  match task_dag !! task_id with
  | None => raise (NotFound task_id)
  | Some task =>
      if bool_decide (new_status ∈ [in_progress; completed])
         && negb (can_execute task_dag task_id)
      then raise DependenciesUnsatisfied
      else
        set_item task_id (set_status task new_status) ;;
        _snapshot
  end.

(** The assignments of lines 157-166, in their order. *)
Definition apply_update (new_title new_description : option string)
    (new_status : option TaskStatus) (new_dependencies : option (list Dependency))
    (new_sources : option (list Source)) (new_steps : option (list Step))
    (task : TaskNode) : TaskNode :=
  let task := set_title task (str_or new_title (title task)) in
  let task := set_description task (str_or new_description (description task)) in
  let task := assign_if_supplied set_status new_status task in
  let task := assign_if_supplied set_dependencies new_dependencies task in
  let task := assign_if_supplied set_sources new_sources task in
  assign_if_supplied set_steps new_steps task.

(** [update_task], lines 142-169. *)
Definition update_task (py : Interpreter) (task_id : string)
    (new_title new_description : option string)
    (new_status : option TaskStatus) (new_dependencies : option (list Dependency))
    (new_sources : option (list Source)) (new_steps : option (list Step)) : Tool TaskMap :=
  task_dag <- get_task_dag ;;
  match task_dag !! task_id with
  | None => raise (NotFound task_id)
  | Some task =>
      set_item task_id (apply_update new_title new_description new_status
                          new_dependencies new_sources new_steps task) ;;
      check_acyclic py ;;
      _snapshot
  end.

(** [delete_task], lines 172-187. *)
Definition delete_task (task_id : string) (cascade : bool) : Tool TaskMap :=
  task_dag <- get_task_dag ;;
  if decide (task_id ∉ dom task_dag) then raise (NotFound task_id)
  else
    pop task_id ;;
    (if cascade
     then for_values (λ task,
            set_dependencies task
              (filter (λ dep, from_task dep ≠ task_id) (dependencies task)))
     else ret ()) ;;
    _snapshot.

End Tools.

(** ** Sequences of calls *)

Inductive Call :=
| Create (task_id title description : string) (status : option TaskStatus)
         (dependencies : option (list Dependency)) (sources : option (list Source))
         (steps : option (list Step))
| Update (task_id : string) (new_title new_description : option string)
         (new_status : option TaskStatus) (new_dependencies : option (list Dependency))
         (new_sources : option (list Source)) (new_steps : option (list Step))
| UpdateStatus (task_id : string) (new_status : TaskStatus)
| Delete (task_id : string) (cascade : bool).

Definition call (py : Interpreter) (c : Call) : Tool TaskMap :=
  match c with
  | Create task_id title description status dependencies sources steps =>
      create_task py task_id title description status dependencies sources steps
  | Update task_id new_title new_description new_status new_dependencies new_sources new_steps =>
      update_task py task_id new_title new_description new_status new_dependencies
                  new_sources new_steps
  | UpdateStatus task_id new_status => update_task_status task_id new_status
  | Delete task_id cascade => delete_task task_id cascade
  end.

(** The outcomes of a sequence of calls, oldest first, and the task map they
    leave.  A call that raised does not stop the session: the agent loop
    reports the error and goes on with the map as the call left it. *)
Fixpoint run (py : Interpreter) (calls : list Call) (task_dag : TaskMap)
    : list (Exn + TaskMap) * TaskMap :=
  match calls with
  | [] => ([], task_dag)
  | c :: calls' =>
      let '(r, task_dag') := call py c task_dag in
      let '(rs, task_dag'') := run py calls' task_dag' in
      (r :: rs, task_dag'')
  end.

(** ** Specification vocabulary *)

(** The edges of the aggregated dependency graph: [u → v] when some record of
    the map, under whatever key, lists a dependency with [from_task = u] and
    [to = v]. *)
Definition edge (tasks : TaskMap) (u v : string) : Prop :=
  ∃ key task dependency,
    tasks !! key = Some task ∧ dependency ∈ dependencies task ∧
    from_task dependency = u ∧ to dependency = v.

(** A directed cycle: a node that reaches itself along at least one edge. *)
Definition has_cycle (tasks : TaskMap) : Prop := ∃ u, tc (edge tasks) u u.

(** The same two notions on the adjacency structure. *)
Definition arc (graph : Graph) (u v : string) : Prop := v ∈ neighbors graph u.
Definition cyclic (graph : Graph) : Prop := ∃ u, tc (arc graph) u u.

(** What the traversal maintains about its marks: the finished nodes are
    closed under arcs and lie on no cycle, and no finished node is still in
    progress. *)
Definition closed (graph : Graph) (D : gset string) : Prop :=
  ∀ u v, u ∈ D → arc graph u v → v ∈ D.
Definition cycle_free (graph : Graph) (D : gset string) : Prop :=
  ∀ u, u ∈ D → ¬ tc (arc graph) u u.

Record marks_inv (graph : Graph) (m : Marks) : Prop := mk_marks_inv {
  inv_closed : closed graph (visited m);
  inv_cycle_free : cycle_free graph (visited m);
  inv_disjoint : visited m ## visiting m;
  inv_nodes : visiting m ⊆ nodes graph
}.

(** [u] is a node the traversal may be called on from the marks [m]: every
    node in progress reaches it. *)
Definition entered (graph : Graph) (m : Marks) (u : string) : Prop :=
  u ∈ nodes graph ∧ ∀ p, p ∈ visiting m → tc (arc graph) p u.

(** Outcome of visiting the nodes of [l] from the marks [m] with [depth]
    nested calls allowed: the cycle error only on a graph with a cycle, the
    recursion error only when the nodes not in progress are at least as many
    as the calls allowed, and otherwise the marks on return. *)
Definition visit_post (graph : Graph) (depth : nat) (m : Marks) (l : list string)
    (r : Exn + Marks) : Prop :=
  match r with
  | inl e =>
      (e = CycleDetected ∧ cyclic graph) ∨
      (e = RecursionError ∧ (depth ≤ size (nodes graph ∖ visiting m))%nat)
  | inr m' =>
      visiting m' = visiting m ∧ visited m ⊆ visited m' ∧
      (∀ v, v ∈ l → v ∈ visited m') ∧ marks_inv graph m'
  end.

(** [visit] meets its contract with [depth] nested calls allowed. *)
Definition visit_ok (graph : Graph) (depth : nat) : Prop :=
  ∀ u m,
    marks_inv graph m → entered graph m u →
    visit_post graph depth m [u] (visit depth graph u m).

(** The exception of an outcome, if any. *)
Definition raised (r : Exn + TaskMap) : option Exn :=
  match r with
  | inl e => Some e
  | inr _ => None
  end.

(** The map as a create or an update has written it by the time it calls
    [validate_acyclic] (lines 110-119 and 157-167); [None] for a call that
    raises before writing and for the tools that do not validate. *)
Definition changes (c : Call) (task_dag : TaskMap) : option TaskMap :=
  match c with
  | Create task_id title description status dependencies sources steps =>
      if decide (task_id ∈ dom task_dag) then None
      else Some (<[task_id := mkTaskNode task_id title description (default pending status)
                                 (list_or_empty steps) (list_or_empty sources)
                                 (list_or_empty dependencies)]> task_dag)
  | Update task_id new_title new_description new_status new_dependencies new_sources new_steps =>
      task ← task_dag !! task_id;
      Some (<[task_id := apply_update new_title new_description new_status
                           new_dependencies new_sources new_steps task]> task_dag)
  | UpdateStatus _ _ | Delete _ _ => None
  end.

(** The tools that end with a call to [validate_acyclic]. *)
Definition validates (c : Call) : bool :=
  match c with
  | Create _ _ _ _ _ _ _ | Update _ _ _ _ _ _ _ => true
  | UpdateStatus _ _ | Delete _ _ => false
  end.

(** A dependency whose upstream task is missing or not completed. *)
Definition unsatisfied (tasks : TaskMap) (dependency : Dependency) : Prop :=
  tasks !! from_task dependency = None ∨
  ∃ upstream, tasks !! from_task dependency = Some upstream ∧ status upstream ≠ completed.

(** ** The read-only task tools ([agent.py], lines 84-93) *)

(** [get_task]: [ctx.deps.state.task_dag.get(task_id)]. *)
Definition get_task (task_id : string) : Tool (option TaskNode) :=
  λ task_dag, (inr (task_dag !! task_id), task_dag).

(** [get_all_tasks]: the dict itself. *)
Definition get_all_tasks : Tool TaskMap := get_task_dag.

(** ** Insertion-ordered dictionaries

    [search_meanings] returns its hits in the order of the meaning index, a
    Python [dict], so that order is kept here: a dict is the list of its
    items, oldest key first, no key twice. *)

Fixpoint od_get {V} (key : string) (d : list (string * V)) : option V :=
  match d with
  | [] => None
  | (k, v) :: d' => if decide (k = key) then Some v else od_get key d'
  end.

(** [d[key] = v]: a key that is present keeps its place, a new key goes last. *)
Fixpoint od_set {V} (key : string) (v : V) (d : list (string * V)) : list (string * V) :=
  match d with
  | [] => [(key, v)]
  | (k, v0) :: d' => if decide (k = key) then (k, v) :: d' else (k, v0) :: od_set key v d'
  end.

(** [d.pop(key)] on a key that is present. *)
Definition od_pop {V} (key : string) (d : list (string * V)) : list (string * V) :=
  filter (λ item, item.1 ≠ key) d.

(** Python's [needle in s] on strings. *)
Fixpoint contains (needle s : string) : bool :=
  String.prefix needle s ||
  match s with
  | EmptyString => false
  | String _ s' => contains needle s'
  end.

(** [s] has [needle] as a contiguous part. *)
Definition substring_of (needle s : string) : Prop :=
  ∃ before after, s = before ++ needle ++ after.

(** ** The meaning index ([models/meaning_index.py] and [agent.py], lines 70-71
    and 190-268) *)

Record MeaningEntry := mkMeaningEntry {
  word_or_phrase : string;
  meaning : string;
  entry_sources : list string;
  entry_context : option string;
  created_at : string;
  updated_at : string
}.

#[global] Instance MeaningEntry_eq_dec : EqDecision MeaningEntry.
Proof. solve_decision. Defined.

(** [dict[str, MeaningEntry]] *)
Abbreviation MeaningIndex := (list (string * MeaningEntry)).

(** [ValueError(f"Meaning entry '{word_or_phrase}' not found.")] *)
Inductive MeaningExn := MeaningNotFound (word_or_phrase : string).

(** [MeaningEntry.touch], with the reading of the clock as an argument. *)
Definition touch (now : string) (entry : MeaningEntry) : MeaningEntry :=
  mkMeaningEntry (word_or_phrase entry) (meaning entry) (entry_sources entry)
                 (entry_context entry) (created_at entry) now.

Definition set_meaning (entry : MeaningEntry) (v : string) : MeaningEntry :=
  mkMeaningEntry (word_or_phrase entry) v (entry_sources entry)
                 (entry_context entry) (created_at entry) (updated_at entry).
Definition set_entry_sources (entry : MeaningEntry) (v : list string) : MeaningEntry :=
  mkMeaningEntry (word_or_phrase entry) (meaning entry) v
                 (entry_context entry) (created_at entry) (updated_at entry).
Definition set_entry_context (entry : MeaningEntry) (v : string) : MeaningEntry :=
  mkMeaningEntry (word_or_phrase entry) (meaning entry) (entry_sources entry)
                 (Some v) (created_at entry) (updated_at entry).

(** [if v is not None: assign v] on an entry. *)
Definition assign_entry_if_supplied {A} (set : MeaningEntry → A → MeaningEntry)
    (v : option A) (entry : MeaningEntry) : MeaningEntry :=
  match v with
  | None => entry
  | Some a => set entry a
  end.

Section MeaningTools.
(** Python's [str.strip()] and [str.lower()].  They work on Unicode text and
    are taken as they are; the tools below do not depend on what they
    compute. *)
Variable str_strip str_lower : string → string.

(** [_normalize_key], lines 70-71. *)
Definition _normalize_key (value : string) : string := str_lower (str_strip value).

(** [get_meaning], lines 190-197. *)
Definition get_meaning (word_or_phrase : string) (index : MeaningIndex) : option MeaningEntry :=
  od_get (_normalize_key word_or_phrase) index.

(** [search_meanings], lines 200-211. *)
Definition search_meanings (query : string) (index : MeaningIndex) : list MeaningEntry :=
  let needle := _normalize_key query in
  (filter (λ item, contains needle item.1 || contains needle (str_lower (meaning item.2)))
          index).*2.

(** [add_meaning], lines 214-231.  The two timestamps are the two readings of
    the clock that the default factories of the entry make.  The result is
    the index that the call leaves; it never raises. *)
Definition add_meaning (word_or_phrase meaning : string) (sources : option (list string))
    (context : option string) (created updated : string) (index : MeaningIndex) : MeaningIndex :=
  let key := _normalize_key word_or_phrase in
  let entry := mkMeaningEntry word_or_phrase meaning (list_or_empty sources) context
                              created updated in
  od_set key entry index.

(** [update_meaning], lines 234-255: the outcome and the index that the call
    leaves. *)
Definition update_meaning (word_or_phrase : string) (new_meaning : option string)
    (new_sources : option (list string)) (new_context : option string) (now : string)
    (index : MeaningIndex) : (MeaningExn + MeaningIndex) * MeaningIndex :=
  let key := _normalize_key word_or_phrase in
  match od_get key index with
  | None => (inl (MeaningNotFound word_or_phrase), index)
  | Some entry =>
      let entry := assign_entry_if_supplied set_meaning new_meaning entry in
      let entry := assign_entry_if_supplied set_entry_sources new_sources entry in
      let entry := assign_entry_if_supplied set_entry_context new_context entry in
      let entry := touch now entry in
      let index' := od_set key entry index in
      (inr index', index')
  end.

(** [delete_meaning], lines 258-268. *)
Definition delete_meaning (word_or_phrase : string) (index : MeaningIndex)
    : (MeaningExn + MeaningIndex) * MeaningIndex :=
  let key := _normalize_key word_or_phrase in
  if decide (key ∉ index.*1) then (inl (MeaningNotFound word_or_phrase), index)
  else
    let index' := od_pop key index in
    (inr index', index').

End MeaningTools.

(** What [str.strip()] and [str.lower()] compute on ASCII text, for running
    the tools on examples: white space is the characters 9 to 13 and 28 to
    32, the capital letters are 65 to 90. *)
Definition is_ascii_space (c : Ascii.ascii) : bool :=
  let n := Ascii.nat_of_ascii c in
  ((9 <=? n) && (n <=? 13) || (28 <=? n) && (n <=? 32))%nat.

Definition lower_ascii_char (c : Ascii.ascii) : Ascii.ascii :=
  let n := Ascii.nat_of_ascii c in
  if ((65 <=? n) && (n <=? 90))%nat then Ascii.ascii_of_nat (n + 32) else c.

Fixpoint lower_ascii (s : string) : string :=
  match s with
  | EmptyString => EmptyString
  | String c s' => String (lower_ascii_char c) (lower_ascii s')
  end.

Fixpoint lstrip_ascii (l : list Ascii.ascii) : list Ascii.ascii :=
  match l with
  | [] => []
  | c :: l' => if is_ascii_space c then lstrip_ascii l' else l
  end.

Definition strip_ascii (s : string) : string :=
  String.string_of_list_ascii
    (List.rev (lstrip_ascii (List.rev (lstrip_ascii (String.list_ascii_of_string s))))).

(** ** The history log ([models/state.py], [agent.py] lines 288-305) *)

(** [Literal["user", "assistant", "tool"]] *)
Inductive Role := user | assistant | tool.

#[global] Instance Role_eq_dec : EqDecision Role.
Proof. solve_decision. Defined.

Record HistoryItem := mkHistoryItem {
  item_id : string;
  role : Role;
  content : string;
  timestamp : string;
  tool_name : option string
}.

(** What the model makes of the [role] argument, a [str]: the three literals
    pass, anything else fails its validation. *)
Definition parse_role (s : string) : option Role :=
  if decide (s = "user") then Some user
  else if decide (s = "assistant") then Some assistant
  else if decide (s = "tool") then Some tool
  else None.

(** The validation error of [HistoryItem(...)]. *)
Inductive HistoryExn := ValidationError.

(** [append_history_item], lines 288-305, with the reading of the clock as an
    argument: the outcome and the history that the call leaves.  The item is
    built, and validated, before [append] runs. *)
Definition append_history_item (role content : string) (tool_name : option string)
    (now : string) (history : list HistoryItem)
    : (HistoryExn + list HistoryItem) * list HistoryItem :=
  let new_id := "history-" ++ pretty (length history + 1) in
  match parse_role role with
  | None => (inl ValidationError, history)
  | Some r =>
      let history' := (history ++ [mkHistoryItem new_id r content now tool_name])%list in
      (inr history', history')
  end.

(** One call of [append_history_item]: role, content, tool name, clock. *)
Record Append := mkAppend {
  append_role : string;
  append_content : string;
  append_tool_name : option string;
  append_now : string
}.

(** The history left by a sequence of calls, oldest first. *)
Definition run_appends (calls : list Append) (history : list HistoryItem) : list HistoryItem :=
  foldl (λ h c, (append_history_item (append_role c) (append_content c)
                   (append_tool_name c) (append_now c) h).2)
        history calls.

(** ** The gateway model ([agent.py], lines 21-46) *)

(** The arguments that [_load_gateway_model] passes to
    [OpenAIResponsesModel]. *)
Record GatewayModel := mkGatewayModel {
  model_name : string;
  base_url : string;
  api_key : string
}.

(** The two [ValueError]s of [_load_gateway_model]. *)
Inductive ConfigExn := MissingBaseUrl | MissingCredentials.

(** Truthiness of what [os.getenv] returns: a variable that is unset or set
    to the empty string is falsy. *)
Definition truthy (v : option string) : bool :=
  match v with
  | None | Some "" => false
  | Some _ => true
  end.

(** Python's [x or y] on two results of [os.getenv]. *)
Definition getenv_or (x y : option string) : option string :=
  if truthy x then x else y.

(** [_load_gateway_model] on the environment [env], [os.getenv] being the
    lookup. *)
Definition _load_gateway_model (env : gmap string string) : ConfigExn + GatewayModel :=
  let gateway_base_url := env !! "PYDANTIC_AI_GATEWAY_BASE_URL" in
  match gateway_base_url with
  | None | Some "" => inl MissingBaseUrl
  | Some base =>
      let gateway_api_key := env !! "PYDANTIC_AI_GATEWAY_API_KEY" in
      let byok_api_key :=
        getenv_or (env !! "PYDANTIC_AI_BYOK_API_KEY") (env !! "OPENAI_API_KEY") in
      match gateway_api_key, byok_api_key with
      | Some (String _ _ as key), _ => inr (mkGatewayModel "gpt-4.1-mini" base key)
      | _, Some (String _ _ as key) => inr (mkGatewayModel "gpt-4.1-mini" base key)
      | _, _ => inl MissingCredentials
      end
  end.

(** The first value of a list of lookups that is set and not empty. *)
Definition first_set (vs : list (option string)) : option string :=
  head (omap (λ v, if truthy v then v else None) vs).

(** * Properties *)

(** ** The traversal *)

Section Traversal.
Variable graph : Graph.

Lemma arc_nodes u v : arc graph u v → u ∈ dom graph ∧ v ∈ nodes graph.
Proof.
  unfold arc, neighbors, nodes. intros Hv.
  destruct (graph !! u) as [vs|] eqn:Hu; simpl in Hv; [|set_solver].
  split; [by apply elem_of_dom|].
  apply elem_of_union_r, elem_of_union_list. exists vs. split; [|done].
  apply list_elem_of_fmap. exists (u, vs). split; [done|].
  by apply elem_of_map_to_list.
Qed.

Lemma closed_tc D u v : closed graph D → u ∈ D → tc (arc graph) u v → v ∈ D.
Proof. intros Hc Hu Hp. induction Hp; eauto. Qed.

Lemma size_nodes_left (P : gset string) u :
  u ∈ nodes graph → u ∉ P →
  size (nodes graph ∖ (P ∪ {[u]})) < size (nodes graph ∖ P).
Proof. intros Hu HP. apply subset_size. set_solver. Qed.

(** The loop over a list of nodes, given the contract of [visit]. *)
Lemma for_each_visit depth l m :
  visit_ok graph depth →
  marks_inv graph m → (∀ v, v ∈ l → entered graph m v) →
  visit_post graph depth m l (for_each (visit depth graph) l m).
Proof.
  intros Hvisit. revert m.
  induction l as [|v l IH]; intros m Hinv Hl; simpl.
  - split_and!; [done|done|set_solver|done].
  - pose proof (Hvisit v m Hinv (Hl v ltac:(left))) as Hv.
    destruct (visit depth graph v m) as [e|m1]; simpl in Hv; [done|].
    destruct Hv as (HP & HD & Hin & Hinv1).
    specialize (IH m1 Hinv1).
    destruct (for_each (visit depth graph) l m1) as [e|m2]; simpl in *.
    + rewrite <-HP. apply IH.
      intros w Hw. destruct (Hl w ltac:(by right)) as [? ?].
      split; [done|]. by rewrite HP.
    + destruct IH as (HP2 & HD2 & Hin2 & Hinv2).
      { intros w Hw. destruct (Hl w ltac:(by right)) as [? ?].
        split; [done|]. by rewrite HP. }
      split_and!; [congruence|set_solver| |done].
      intros w [->|Hw]%elem_of_cons; [set_solver|by apply Hin2].
Qed.

Lemma visit_contract depth : visit_ok graph depth.
Proof.
  induction depth as [|depth IH]; intros u m Hinv [Hu Hpath].
  { simpl. right. split; [done|lia]. }
  simpl. destruct Hinv as [Hclosed Hfree Hdisj Hnodes].
  destruct (decide (u ∈ visiting m)) as [Hin|Hnin].
  { left. split; [done|]. exists u. by apply Hpath. }
  destruct (decide (u ∈ visited m)) as [Hdone|Hnew].
  { split_and!; [done|done|set_solver|done]. }
  set (m1 := mkMarks (visited m) (visiting m ∪ {[u]})).
  assert (marks_inv graph m1) as Hinv1.
  { split; simpl; [done|done|set_solver|set_solver]. }
  assert (∀ v, v ∈ elements (neighbors graph u) → entered graph m1 v) as Hl.
  { intros v Hv%elem_of_elements. split; [by eapply arc_nodes|].
    simpl. intros p [Hp| ->%elem_of_singleton]%elem_of_union.
    - eapply tc_r; [by apply Hpath|done].
    - by apply tc_once. }
  pose proof (for_each_visit depth _ m1 IH Hinv1 Hl) as Hloop.
  destruct (for_each (visit depth graph) (elements (neighbors graph u)) m1)
    as [e|m2]; simpl in Hloop.
  { destruct Hloop as [?|[-> Hdeep]]; [by left|]. right. split; [done|].
    pose proof (size_nodes_left (visiting m) u Hu Hnin). lia. }
  simpl.
  destruct Hloop as (HP & HD & Hin & [Hclosed2 Hfree2 Hdisj2 Hnodes2]).
  rewrite HP in *. simpl in *.
  assert (u ∉ visited m2) as Hu2 by set_solver.
  assert (∀ v, arc graph u v → v ∈ visited m2) as Hsucc.
  { intros v Hv. apply Hin. by apply elem_of_elements. }
  split_and!; [set_solver|set_solver|set_solver|].
  split; simpl.
  - intros x y [Hx| ->%elem_of_singleton]%elem_of_union Hxy.
    + apply elem_of_union_l. by eapply Hclosed2.
    + apply elem_of_union_l. by apply Hsucc.
  - intros x [Hx| ->%elem_of_singleton]%elem_of_union Hcyc; [by eapply Hfree2|].
    apply Hu2. inversion Hcyc as [? ? Huu|? v ? Huv Hvu]; subst.
    + by apply Hsucc.
    + eapply closed_tc; [done| |done]. by apply Hsucc.
  - set_solver.
  - set_solver.
Qed.

(** The top-level loop of [validate_acyclic] on [graph], for every number of
    nested calls allowed and every order in which the keys are taken: the
    cycle error is raised only on a cyclic graph, the loop returns only on a
    graph without cycle, and the recursion error is raised only when the
    graph has at least as many nodes as calls are allowed. *)
Lemma traversal_outcome_any_depth depth (keys : list string) :
  (∀ v, v ∈ keys ↔ v ∈ dom graph) →
  match for_each (visit depth graph) keys (mkMarks ∅ ∅) with
  | inl e =>
      (e = CycleDetected ∧ cyclic graph) ∨
      (e = RecursionError ∧ (depth ≤ size (nodes graph))%nat)
  | inr _ => ¬ cyclic graph
  end.
Proof.
  intros Hkeys.
  assert (visit_post graph depth (mkMarks ∅ ∅) keys
            (for_each (visit depth graph) keys (mkMarks ∅ ∅))) as H.
  { apply for_each_visit.
    - apply visit_contract.
    - split; simpl; [by intros ? ? ?%not_elem_of_empty|
                     by intros ? ?%not_elem_of_empty|set_solver|set_solver].
    - intros v Hv%Hkeys. split; [unfold nodes; set_solver|].
      simpl. set_solver. }
  destruct (for_each _ _ _) as [e|m']; simpl in H.
  { destruct H as [?|[-> Hdeep]]; [by left|]. right. split; [done|].
    etrans; [done|]. apply subseteq_size. set_solver. }
  destruct H as (_ & _ & Hall & [_ Hfree _ _]).
  intros [x Hx]. apply (Hfree x); [|done]. apply Hall, Hkeys.
  inversion Hx as [? ? Hxy|? y ? Hxy _]; subst; by apply arc_nodes in Hxy as [? _].
Qed.

(** With more calls allowed than the graph has nodes the loop raises the cycle
    error when the graph is cyclic and returns when it is not. *)
Lemma traversal_outcome depth (keys : list string) :
  size (nodes graph) < depth →
  (∀ v, v ∈ keys ↔ v ∈ dom graph) →
  match for_each (visit depth graph) keys (mkMarks ∅ ∅) with
  | inl e => e = CycleDetected ∧ cyclic graph
  | inr _ => ¬ cyclic graph
  end.
Proof.
  intros Hdepth Hkeys. pose proof (traversal_outcome_any_depth depth keys Hkeys) as H.
  destruct (for_each _ _ _) as [e|m']; [|done].
  destruct H as [?|[_ ?]]; [done|lia].
Qed.

End Traversal.

(** ** The graph that [validate_acyclic] builds *)

Lemma tc_mono {A} (R1 R2 : relation A) x y :
  (∀ a b, R1 a b → R2 a b) → tc R1 x y → tc R2 x y.
Proof.
  intros Hsub Hp. induction Hp as [? ? H|? ? ? H _ IH].
  - by apply tc_once, Hsub.
  - eapply tc_l; [by apply Hsub|done].
Qed.

Lemma neighbors_add_edge graph dependency u :
  neighbors (add_edge graph dependency) u =
  if decide (from_task dependency = u)
  then neighbors graph u ∪ {[to dependency]} else neighbors graph u.
Proof.
  unfold add_edge, neighbors at 1. case_decide as Hu.
  - subst u. by rewrite lookup_insert_eq.
  - by rewrite lookup_insert_ne.
Qed.

Lemma arc_add_edges graph (ds : list Dependency) u v :
  arc (foldl add_edge graph ds) u v ↔
  arc graph u v ∨ ∃ d, d ∈ ds ∧ from_task d = u ∧ to d = v.
Proof.
  revert graph. induction ds as [|d ds IH]; intros graph; simpl.
  - split; [by left|]. intros [?|(d & Hd & _)]; [done|]. by apply elem_of_nil in Hd.
  - rewrite IH. unfold arc at 1. rewrite neighbors_add_edge.
    split.
    + intros [Hv|(d' & Hd' & ? & ?)].
      * case_decide; [|by left].
        apply elem_of_union in Hv as [Hv|Hv%elem_of_singleton]; [by left|].
        right. exists d. split_and!; [left|done|done].
      * right. exists d'. split_and!; [by right|done|done].
    + intros [Hv|(d' & Hd' & Hfrom & Hto)].
      * left. case_decide; [by apply elem_of_union_l|done].
      * apply elem_of_cons in Hd' as [->|Hd'].
        -- left. rewrite decide_True by done.
           apply elem_of_union_r, elem_of_singleton. done.
        -- right. by exists d'.
Qed.

Lemma arc_add_tasks graph (ts : list TaskNode) u v :
  arc (foldl (λ graph task, foldl add_edge graph (dependencies task)) graph ts) u v ↔
  arc graph u v ∨
  ∃ task d, task ∈ ts ∧ d ∈ dependencies task ∧ from_task d = u ∧ to d = v.
Proof.
  revert graph. induction ts as [|t ts IH]; intros graph; simpl.
  - split; [by left|]. intros [?|(t & d & Ht & _)]; [done|]. by apply elem_of_nil in Ht.
  - rewrite IH, arc_add_edges. split.
    + intros [[?|(d & ? & ? & ?)]|(t' & d & ? & ? & ? & ?)].
      * by left.
      * right. exists t, d. split_and!; [left|done..].
      * right. exists t', d. split_and!; [by right|done..].
    + intros [?|(t' & d & [->|Ht']%elem_of_cons & ? & ? & ?)].
      * by left; left.
      * left; right. by exists d.
      * right. by exists t', d.
Qed.

(** The arcs of the built graph are the dependency edges of the map, each
    under its own [from_task] and [to]. *)
Lemma arc_build_graph tasks u v : arc (build_graph tasks) u v ↔ edge tasks u v.
Proof.
  unfold build_graph. rewrite arc_add_tasks. split.
  - intros [Hv|(t & d & Ht & Hd & Hu & Hv)].
    + unfold arc, neighbors in Hv. rewrite lookup_fmap in Hv.
      destruct (tasks !! u); simpl in Hv; set_solver.
    + apply list_elem_of_fmap in Ht as ([k t'] & -> & Hk%elem_of_map_to_list).
      by exists k, t', d.
  - intros (k & t & d & Hk & Hd & Hu & Hv). right. exists t, d.
    split_and!; [|done..].
    apply list_elem_of_fmap. exists (k, t). split; [done|].
    by apply elem_of_map_to_list.
Qed.

Lemma cyclic_build_graph tasks : cyclic (build_graph tasks) ↔ has_cycle tasks.
Proof.
  split; intros [u Hu]; exists u; (eapply tc_mono; [|exact Hu]);
    intros a b; by rewrite arc_build_graph.
Qed.

Lemma elem_of_dom_add_edges graph (ds : list Dependency) u :
  u ∈ dom (foldl add_edge graph ds) ↔ u ∈ dom graph ∨ ∃ d, d ∈ ds ∧ from_task d = u.
Proof.
  revert graph. induction ds as [|d ds IH]; intros graph; simpl.
  - split; [by left|]. intros [?|(d & Hd & _)]; [done|]. by apply elem_of_nil in Hd.
  - rewrite IH. unfold add_edge. rewrite dom_insert_L, elem_of_union, elem_of_singleton.
    split.
    + intros [[->|?]|(d' & ? & ?)]; [right; exists d; split; [left|done]|by left|].
      right. exists d'. split; [by right|done].
    + intros [?|(d' & [->|?]%elem_of_cons & ?)]; [by left; right|by left; left|].
      right. by exists d'.
Qed.

Lemma elem_of_dom_add_tasks graph (ts : list TaskNode) u :
  u ∈ dom (foldl (λ graph task, foldl add_edge graph (dependencies task)) graph ts) ↔
  u ∈ dom graph ∨ ∃ task d, task ∈ ts ∧ d ∈ dependencies task ∧ from_task d = u.
Proof.
  revert graph. induction ts as [|t ts IH]; intros graph; simpl.
  - split; [by left|]. intros [?|(t & d & Ht & _)]; [done|]. by apply elem_of_nil in Ht.
  - rewrite IH, elem_of_dom_add_edges. split.
    + intros [[?|(d & ? & ?)]|(t' & d & ? & ? & ?)].
      * by left.
      * right. exists t, d. split_and!; [left|done..].
      * right. exists t', d. split_and!; [by right|done..].
    + intros [?|(t' & d & [->|Ht']%elem_of_cons & ? & ?)].
      * by left; left.
      * left; right. by exists d.
      * right. by exists t', d.
Qed.

(** The keys of the built graph: the task ids and the [from_task] of every
    dependency. *)
Lemma elem_of_dom_build_graph tasks u :
  u ∈ dom (build_graph tasks) ↔ u ∈ dom tasks ∨ ∃ v, edge tasks u v.
Proof.
  unfold build_graph. rewrite elem_of_dom_add_tasks, dom_fmap_L. split.
  - intros [?|(t & d & Ht & Hd & Hu)]; [by left|]. right. exists (to d).
    apply list_elem_of_fmap in Ht as ([k t'] & -> & Hk%elem_of_map_to_list).
    by exists k, t', d.
  - intros [?|(v & k & t & d & Hk & Hd & Hu & _)]; [by left|]. right. exists t, d.
    split_and!; [|done..].
    apply list_elem_of_fmap. exists (k, t). split; [done|].
    by apply elem_of_map_to_list.
Qed.

(** Two maps with the same keys and the same edges build the same graph. *)
Lemma build_graph_ext tasks1 tasks2 :
  dom tasks1 = dom tasks2 →
  (∀ u v, edge tasks1 u v ↔ edge tasks2 u v) →
  build_graph tasks1 = build_graph tasks2.
Proof.
  intros Hdom Hedge.
  assert (∀ u, u ∈ dom (build_graph tasks1) ↔ u ∈ dom (build_graph tasks2)) as Hd.
  { intros u. rewrite !elem_of_dom_build_graph, Hdom.
    split; (intros [?|[v Hv]]; [by left|right; exists v; by apply Hedge]). }
  assert (∀ u, neighbors (build_graph tasks1) u = neighbors (build_graph tasks2) u) as Hn.
  { intros u. apply set_eq. intros v.
    change (arc (build_graph tasks1) u v ↔ arc (build_graph tasks2) u v).
    by rewrite !arc_build_graph. }
  apply map_eq. intros u. specialize (Hd u). specialize (Hn u).
  rewrite !elem_of_dom in Hd. unfold neighbors in Hn.
  destruct (build_graph tasks1 !! u) as [X1|], (build_graph tasks2 !! u) as [X2|];
    simpl in Hn.
  - by rewrite Hn.
  - destruct Hd as [Hd _]. by destruct Hd.
  - destruct Hd as [_ Hd]. by destruct Hd.
  - done.
Qed.

Lemma elem_of_key_order py (X : gset string) v : v ∈ key_order py (elements X) ↔ v ∈ X.
Proof. by rewrite key_order_perm, elem_of_elements. Qed.

(** [validate_acyclic] in terms of [has_cycle]: the cycle error is raised only
    on a map with a cycle, the call returns only on a map without one, and
    the recursion error is raised only on a map whose graph does not fit the
    recursion limit. *)
Lemma validate_acyclic_cases py tasks :
  (validate_acyclic py tasks = inl CycleDetected ∧ has_cycle tasks) ∨
  (validate_acyclic py tasks = inr () ∧ ¬ has_cycle tasks) ∨
  (validate_acyclic py tasks = inl RecursionError ∧ ¬ fits_recursion_limit py tasks).
Proof.
  unfold validate_acyclic, fits_recursion_limit. cbv zeta.
  pose proof (traversal_outcome_any_depth (build_graph tasks) (recursion_limit py)
                (key_order py (elements (dom (build_graph tasks))))
                (elem_of_key_order py _)) as H.
  destruct (for_each _ _ _) as [e|m].
  - destruct H as [[-> H]|[-> H]].
    + left. by rewrite <-cyclic_build_graph.
    + right; right. split; [done|lia].
  - right; left. by rewrite <-cyclic_build_graph.
Qed.

Lemma validate_acyclic_raises_sound py tasks :
  validate_acyclic py tasks = inl CycleDetected → has_cycle tasks.
Proof. destruct (validate_acyclic_cases py tasks) as [[_ ?]|[[-> _]|[-> _]]]; done. Qed.

Lemma validate_acyclic_returns_sound py tasks :
  validate_acyclic py tasks = inr () → ¬ has_cycle tasks.
Proof. destruct (validate_acyclic_cases py tasks) as [[-> _]|[[_ ?]|[-> _]]]; done. Qed.

Lemma validate_acyclic_errors py tasks e :
  validate_acyclic py tasks = inl e → e = CycleDetected ∨ e = RecursionError.
Proof.
  destruct (validate_acyclic_cases py tasks) as [[-> _]|[[-> _]|[-> _]]];
    intros [= <-]; auto.
Qed.

(** Within the recursion limit the recursion error is not raised. *)
Lemma validate_acyclic_no_RecursionError py tasks :
  fits_recursion_limit py tasks → validate_acyclic py tasks ≠ inl RecursionError.
Proof. destruct (validate_acyclic_cases py tasks) as [[-> _]|[[-> _]|[_ ?]]]; done. Qed.

Lemma validate_acyclic_ok py tasks :
  fits_recursion_limit py tasks → validate_acyclic py tasks = inr () ↔ ¬ has_cycle tasks.
Proof.
  destruct (validate_acyclic_cases py tasks) as [[-> ?]|[[-> ?]|[_ ?]]]; naive_solver.
Qed.


(** ** The tools, one equation each *)

Lemma create_task_eq py task_id title description status dependencies sources steps tasks :
  create_task py task_id title description status dependencies sources steps tasks =
  if decide (task_id ∈ dom tasks) then (inl (AlreadyExists task_id), tasks)
  else
    let tasks' := <[task_id := mkTaskNode task_id title description (default pending status)
                                 (list_or_empty steps) (list_or_empty sources)
                                 (list_or_empty dependencies)]> tasks in
    match validate_acyclic py tasks' with
    | inl e => (inl e, tasks')
    | inr _ => (inr tasks', tasks')
    end.
Proof.
  unfold create_task, bind, get_task_dag. case_decide; [done|].
  unfold set_item, check_acyclic, _snapshot, get_task_dag. simpl.
  by destruct (validate_acyclic _ _) as [?|[]].
Qed.

Lemma update_task_eq py task_id nt nd ns ndeps nsrc nsteps tasks :
  update_task py task_id nt nd ns ndeps nsrc nsteps tasks =
  match tasks !! task_id with
  | None => (inl (NotFound task_id), tasks)
  | Some task =>
      let tasks' := <[task_id := apply_update nt nd ns ndeps nsrc nsteps task]> tasks in
      match validate_acyclic py tasks' with
      | inl e => (inl e, tasks')
      | inr _ => (inr tasks', tasks')
      end
  end.
Proof.
  unfold update_task, bind, get_task_dag. destruct (tasks !! task_id); [|done].
  unfold set_item, check_acyclic, _snapshot, get_task_dag. simpl.
  by destruct (validate_acyclic _ _) as [?|[]].
Qed.

Lemma update_task_status_eq task_id new_status tasks :
  update_task_status task_id new_status tasks =
  match tasks !! task_id with
  | None => (inl (NotFound task_id), tasks)
  | Some task =>
      if bool_decide (new_status ∈ [in_progress; completed]) && negb (can_execute tasks task_id)
      then (inl DependenciesUnsatisfied, tasks)
      else (inr (<[task_id := set_status task new_status]> tasks),
            <[task_id := set_status task new_status]> tasks)
  end.
Proof.
  unfold update_task_status, bind, get_task_dag. destruct (tasks !! task_id); [|done].
  by destruct (_ && _).
Qed.

Lemma delete_task_eq task_id cascade tasks :
  delete_task task_id cascade tasks =
  if decide (task_id ∉ dom tasks) then (inl (NotFound task_id), tasks)
  else
    let tasks' :=
      if cascade
      then (λ task, set_dependencies task
              (filter (λ dep, from_task dep ≠ task_id) (dependencies task)))
           <$> delete task_id tasks
      else delete task_id tasks in
    (inr tasks', tasks').
Proof.
  unfold delete_task, bind, get_task_dag. case_decide; [done|].
  by destruct cascade.
Qed.

Lemma changes_call py c tasks tasks' :
  changes c tasks = Some tasks' →
  call py c tasks = match validate_acyclic py tasks' with
                 | inl e => (inl e, tasks')
                 | inr _ => (inr tasks', tasks')
                 end.
Proof.
  destruct c as [k ti de st ds so sp|k nt nd ns nds nso nsp|k st|k cascade];
    simpl; [| |done..].
  - rewrite create_task_eq. case_decide; [done|]. by intros [= <-].
  - rewrite update_task_eq. destruct (tasks !! k); simpl; [|done]. by intros [= <-].
Qed.

(** ** Edges under the writes of the tools *)

Lemma has_cycle_mono tasks tasks' :
  (∀ u v, edge tasks' u v → edge tasks u v) → has_cycle tasks' → has_cycle tasks.
Proof. intros Hsub [u Hu]. exists u. by eapply tc_mono. Qed.

Lemma edge_insert_same_dependencies tasks key task task' u v :
  tasks !! key = Some task → dependencies task' = dependencies task →
  edge (<[key := task']> tasks) u v → edge tasks u v.
Proof.
  intros Hkey Hdeps (k & t & d & Hk & Hd & Hu & Hv).
  destruct (decide (key = k)) as [->|Hne].
  - rewrite lookup_insert_eq in Hk. injection Hk as <-.
    exists k, task, d. by rewrite <-Hdeps.
  - rewrite lookup_insert_ne in Hk by done. by exists k, t, d.
Qed.

Lemma edge_delete tasks key u v : edge (delete key tasks) u v → edge tasks u v.
Proof.
  intros (k & t & d & Hk & Hd & Hu & Hv).
  apply lookup_delete_Some in Hk as [_ Hk]. by exists k, t, d.
Qed.

Lemma edge_filter_dependencies (P : Dependency → Prop) `{∀ d, Decision (P d)} tasks u v :
  edge ((λ task, set_dependencies task (filter P (dependencies task))) <$> tasks) u v →
  edge tasks u v.
Proof.
  intros (k & t & d & Hk & Hd & Hu & Hv).
  rewrite lookup_fmap in Hk. destruct (tasks !! k) as [t0|] eqn:Hk0; [|done].
  injection Hk as <-. simpl in Hd. apply list_elem_of_filter in Hd as [_ Hd].
  by exists k, t0, d.
Qed.

(** A call whose validation does not fail leaves an acyclic map acyclic. *)
Lemma call_preserves_acyclic py c tasks :
  ¬ has_cycle tasks →
  (call py c tasks).1 ≠ inl CycleDetected → (call py c tasks).1 ≠ inl RecursionError →
  ¬ has_cycle (call py c tasks).2.
Proof.
  intros Hacyc.
  destruct c as [k ti de st ds so sp|k nt nd ns nds nso nsp|k st|k cascade]; simpl.
  - rewrite create_task_eq. case_decide; [done|]. cbv zeta.
    destruct (validate_acyclic_cases py (<[k:=mkTaskNode k ti de (default pending st)
      (list_or_empty sp) (list_or_empty so) (list_or_empty ds)]> tasks))
      as [[-> ?]|[[-> ?]|[-> ?]]]; done.
  - rewrite update_task_eq. destruct (tasks !! k) as [task|]; [|done]. cbv zeta.
    destruct (validate_acyclic_cases py (<[k:=apply_update nt nd ns nds nso nsp task]> tasks))
      as [[-> ?]|[[-> ?]|[-> ?]]]; done.
  - rewrite update_task_status_eq. destruct (tasks !! k) as [task|] eqn:Htask; [|done].
    destruct (_ && _); [done|]. simpl. intros _ _ Hcyc. apply Hacyc.
    eapply has_cycle_mono; [|done]. intros u v.
    by apply edge_insert_same_dependencies with (task := task).
  - rewrite delete_task_eq. case_decide; [done|]. simpl. intros _ _ Hcyc. apply Hacyc.
    eapply has_cycle_mono; [|done]. intros u v. destruct cascade.
    + intros He%edge_filter_dependencies. by eapply edge_delete.
    + apply edge_delete.
Qed.

Lemma run_preserves_acyclic py calls tasks :
  ¬ has_cycle tasks →
  inl CycleDetected ∉ (run py calls tasks).1 →
  inl RecursionError ∉ (run py calls tasks).1 →
  ¬ has_cycle (run py calls tasks).2.
Proof.
  revert tasks. induction calls as [|c calls IH]; intros tasks Hacyc; simpl; [done|].
  pose proof (call_preserves_acyclic py c tasks Hacyc) as Hc.
  destruct (call py c tasks) as [r tasks1]. simpl in Hc.
  specialize (IH tasks1). destruct (run py calls tasks1) as [rs tasks2]. simpl in *.
  intros Hcyc Hrec. apply IH.
  - apply Hc; intros ->; [apply Hcyc|apply Hrec]; left.
  - intros ?. apply Hcyc. by right.
  - intros ?. apply Hrec. by right.
Qed.

Lemma has_cycle_empty : ¬ has_cycle ∅.
Proof.
  intros [u Hu]. inversion Hu as [? ? (k & t & ? & Hk & _)|? ? ? (k & t & ? & Hk & _) _];
    by rewrite lookup_empty in Hk.
Qed.

(** ** Claims about [validate_acyclic] and [can_execute] *)



Lemma dependency_satisfied_false tasks d :
  dependency_satisfied tasks d = false ↔ type d ≠ soft ∧ unsatisfied tasks d.
Proof.
  unfold dependency_satisfied, unsatisfied. case_decide as Hsoft.
  - split; [done|]. by intros [? _].
  - destruct (tasks !! from_task d) as [up|].
    + rewrite bool_decide_eq_false. split.
      * intros Hst. split; [done|]. right. by exists up.
      * intros [_ [?|(up' & [= <-] & ?)]]; done.
    + split; [|done]. intros _. split; [done|by left].
Qed.

Lemma can_execute_false tasks task_id task :
  tasks !! task_id = Some task →
  can_execute tasks task_id = false ↔
  ∃ d, d ∈ dependencies task ∧ type d ≠ soft ∧ unsatisfied tasks d.
Proof.
  intros Htask. unfold can_execute. rewrite Htask.
  induction (dependencies task) as [|d ds IH]; simpl.
  - split; [done|]. intros (d & Hd & _). by apply elem_of_nil in Hd.
  - rewrite andb_false_iff, IH, dependency_satisfied_false. split.
    + intros [[? ?]|(d' & ? & ?)].
      * exists d. split; [left|done].
      * exists d'. split; [by right|done].
    + intros (d' & [->|?]%elem_of_cons & ?); [by left|].
      right. by exists d'.
Qed.

Lemma dependency_satisfied_statuses (tasks tasks' : TaskMap) d :
  (∀ k, status <$> tasks' !! k = status <$> tasks !! k) →
  dependency_satisfied tasks' d = dependency_satisfied tasks d.
Proof.
  intros Hst. unfold dependency_satisfied. case_decide; [done|].
  specialize (Hst (from_task d)).
  destruct (tasks' !! from_task d), (tasks !! from_task d); simpl in Hst;
    [injection Hst as ->|done..]. done.
Qed.

(** C4. [can_execute] is false for an id without a record.  For an id with a
    record it is false exactly when some dependency of that record's own list
    has a type other than soft and an upstream task, looked up by
    [from_task], that is missing or not completed; otherwise it is true, so it
    is true for an empty list.  The dependency lists of the other records are
    not consulted: replacing any of them leaves the answer unchanged. *)
Theorem can_execute_spec (tasks : TaskMap) (task_id : string) :
  (tasks !! task_id = None → can_execute tasks task_id = false) ∧
  (∀ task, tasks !! task_id = Some task →
     (can_execute tasks task_id = false ↔
      ∃ d, d ∈ dependencies task ∧ type d ≠ soft ∧ unsatisfied tasks d) ∧
     (can_execute tasks task_id = true ↔
      ¬ ∃ d, d ∈ dependencies task ∧ type d ≠ soft ∧ unsatisfied tasks d) ∧
     (dependencies task = [] → can_execute tasks task_id = true)) ∧
  (∀ other ds, other ≠ task_id →
     can_execute (alter (λ task, set_dependencies task ds) other tasks) task_id =
     can_execute tasks task_id).
Proof.
  split_and!.
  - intros H. unfold can_execute. by rewrite H.
  - intros task Htask.
    pose proof (can_execute_false tasks task_id task Htask) as Hfalse.
    split_and!; [done| |].
    + rewrite <-Hfalse. by destruct (can_execute tasks task_id).
    + intros Hnil. unfold can_execute. by rewrite Htask, Hnil.
  - intros other ds Hne. unfold can_execute.
    rewrite lookup_alter_ne by done.
    destruct (tasks !! task_id) as [task|]; [|done].
    induction (dependencies task) as [|d l IH]; simpl; [done|]. rewrite IH. f_equal.
    apply dependency_satisfied_statuses.
    intros k. rewrite lookup_alter. case_decide; [|done].
    subst. by destruct (tasks !! k).
Qed.

(** ** Claims about [update_task_status] *)

(** C3. [update_task_status] raises the not-found error when the id has no
    record.  When it has one and the new status is in_progress or completed,
    the call raises the unsatisfied-dependencies error exactly when
    [can_execute] is false, leaving the map as it was, and otherwise stores
    the new status: the record under the id then has the new status and its
    other fields as before.  When the new status is pending, blocked or
    skipped the status is stored in the same way whatever [can_execute]
    says. *)
Theorem update_task_status_spec (tasks : TaskMap) (task_id : string) (new_status : TaskStatus) :
  (tasks !! task_id = None →
   update_task_status task_id new_status tasks = (inl (NotFound task_id), tasks)) ∧
  (∀ task, tasks !! task_id = Some task →
     let after := <[task_id := {| id := id task;
                                  title := title task;
                                  description := description task;
                                  status := new_status;
                                  steps := steps task;
                                  sources := sources task;
                                  dependencies := dependencies task |}]> tasks in
     (new_status = in_progress ∨ new_status = completed →
        ((update_task_status task_id new_status tasks).1 = inl DependenciesUnsatisfied ↔
         can_execute tasks task_id = false) ∧
        (can_execute tasks task_id = false →
         update_task_status task_id new_status tasks = (inl DependenciesUnsatisfied, tasks)) ∧
        (can_execute tasks task_id = true →
         update_task_status task_id new_status tasks = (inr after, after))) ∧
     (new_status = pending ∨ new_status = blocked ∨ new_status = skipped →
        update_task_status task_id new_status tasks = (inr after, after))).
Proof.
  rewrite update_task_status_eq. unfold set_status. split.
  - by intros ->.
  - intros task ->. cbv zeta. split.
    + intros Hgate.
      assert (bool_decide (new_status ∈ [in_progress; completed]) = true) as ->.
      { apply bool_decide_eq_true. destruct Hgate as [-> | ->]; set_solver. }
      destruct (can_execute tasks task_id); simpl; split_and!; done.
    + intros Hfree.
      assert (bool_decide (new_status ∈ [in_progress; completed]) = false) as ->; [|done].
      apply bool_decide_eq_false. destruct Hfree as [-> | [-> | ->]]; set_solver.
Qed.

(** C10. A call of [update_task_status] that returns has changed nothing but
    the status of the record under the given id: that record keeps its id,
    title, description, steps, sources and dependencies and takes the new
    status, every other key of the map keeps its record, no key is added or
    removed, and the snapshot returned is the resulting map. *)
Theorem update_task_status_frame (tasks : TaskMap) (task_id : string)
    (new_status : TaskStatus) (snapshot after : TaskMap) :
  update_task_status task_id new_status tasks = (inr snapshot, after) →
  snapshot = after ∧
  dom after = dom tasks ∧
  (∀ other, other ≠ task_id → after !! other = tasks !! other) ∧
  ∃ task task',
    tasks !! task_id = Some task ∧ after !! task_id = Some task' ∧
    status task' = new_status ∧
    id task' = id task ∧ title task' = title task ∧
    description task' = description task ∧ steps task' = steps task ∧
    sources task' = sources task ∧ dependencies task' = dependencies task.
Proof.
  rewrite update_task_status_eq.
  destruct (tasks !! task_id) as [task|] eqn:Htask; [|done].
  destruct (_ && _); [done|]. intros [= <- <-]. split_and!.
  - done.
  - rewrite dom_insert_L. apply elem_of_dom_2 in Htask. set_solver.
  - intros other Hne. by rewrite lookup_insert_ne.
  - exists task, (set_status task new_status). by rewrite lookup_insert_eq.
Qed.

Lemma update_task_status_frame_witness :
  let tasks : TaskMap := {[ "A" := mkTaskNode "A" "first" "" pending [] [] [] ]} in
  let after : TaskMap := {[ "A" := mkTaskNode "A" "first" "" completed [] [] [] ]} in
  update_task_status "A" completed tasks = (inr after, after) ∧
  dom after = dom tasks.
Proof.
  split; [by vm_compute|].
  eapply (update_task_status_frame _ "A" completed). by vm_compute.
Defined.

(** ** Claims about [delete_task] *)

(** C6. Deleting an id that has a record removes that record.  With
    [cascade] every remaining record keeps its other fields and keeps, in
    their order, exactly the dependencies whose [from_task] differs from the
    deleted id; a dependency whose [to] is the deleted id and whose
    [from_task] is another id therefore stays, dangling.  Without [cascade]
    the remaining records are untouched. *)
Theorem delete_task_spec (tasks : TaskMap) (T : string) (task : TaskNode) :
  tasks !! T = Some task →
  delete_task T false tasks = (inr (delete T tasks), delete T tasks) ∧
  ∃ after,
    delete_task T true tasks = (inr after, after) ∧
    after !! T = None ∧
    dom after = dom tasks ∖ {[T]} ∧
    ∀ key t, key ≠ T → tasks !! key = Some t →
      ∃ t', after !! key = Some t' ∧
        dependencies t' = filter (λ d, from_task d ≠ T) (dependencies t) ∧
        (∀ d, d ∈ dependencies t' ↔ d ∈ dependencies t ∧ from_task d ≠ T) ∧
        (∀ d, d ∈ dependencies t → to d = T → from_task d ≠ T → d ∈ dependencies t') ∧
        id t' = id t ∧ title t' = title t ∧ description t' = description t ∧
        status t' = status t ∧ steps t' = steps t ∧ sources t' = sources t.
Proof.
  intros Htask. rewrite !delete_task_eq.
  destruct (decide (T ∉ dom tasks)) as [Hn|_]; [by apply elem_of_dom_2 in Htask|].
  split; [done|]. eexists. split; [reflexivity|]. split_and!.
  - by rewrite lookup_fmap, lookup_delete_eq.
  - by rewrite dom_fmap_L, dom_delete_L.
  - intros key t Hne Hkey. eexists.
    rewrite lookup_fmap, lookup_delete_ne, Hkey by done. simpl.
    split; [reflexivity|]. simpl. split_and!; try done.
    + intros d. by rewrite list_elem_of_filter, (comm and).
    + intros d Hd _ Hfrom. by apply list_elem_of_filter.
Qed.

Lemma delete_task_spec_witness :
  let tasks : TaskMap :=
    {[ "T" := mkTaskNode "T" "t" "" pending [] [] [];
       "U" := mkTaskNode "U" "u" "" pending [] []
                [mkDependency "T" "U" required; mkDependency "U" "T" soft] ]} in
  tasks !! "T" = Some (mkTaskNode "T" "t" "" pending [] [] []) ∧
  delete_task "T" false tasks = (inr (delete "T" tasks), delete "T" tasks).
Proof.
  split; [by vm_compute|].
  eapply proj1, (delete_task_spec _ "T"). by vm_compute.
Defined.

(** ** Claims about [update_task] and [create_task] *)

(** The outcome of validation does not depend on the interpreter as long as
    the graph of the map fits its recursion limit. *)
Lemma validate_acyclic_transfer py1 py2 tasks :
  fits_recursion_limit py1 tasks → fits_recursion_limit py2 tasks →
  validate_acyclic py1 tasks = validate_acyclic py2 tasks.
Proof.
  intros H1 H2.
  destruct (validate_acyclic_cases py1 tasks) as [[-> ?]|[[-> ?]|[_ ?]]],
           (validate_acyclic_cases py2 tasks) as [[-> ?]|[[-> ?]|[_ ?]]]; done.
Qed.

Lemma create_task_transfer py1 py2 task_id title description status dependencies sources
    steps tasks :
  let written := <[task_id := mkTaskNode task_id title description (default pending status)
                                (list_or_empty steps) (list_or_empty sources)
                                (list_or_empty dependencies)]> tasks in
  fits_recursion_limit py1 written → fits_recursion_limit py2 written →
  create_task py1 task_id title description status dependencies sources steps tasks =
  create_task py2 task_id title description status dependencies sources steps tasks.
Proof.
  cbv zeta. intros H1 H2. rewrite !create_task_eq. case_decide; [done|]. cbv zeta.
  by rewrite (validate_acyclic_transfer py1 py2).
Qed.

Lemma update_task_transfer py1 py2 task_id nt nd ns ndeps nsrc nsteps tasks :
  (∀ task, tasks !! task_id = Some task →
     let written := <[task_id := apply_update nt nd ns ndeps nsrc nsteps task]> tasks in
     fits_recursion_limit py1 written ∧ fits_recursion_limit py2 written) →
  update_task py1 task_id nt nd ns ndeps nsrc nsteps tasks =
  update_task py2 task_id nt nd ns ndeps nsrc nsteps tasks.
Proof.
  intros H. rewrite !update_task_eq. destruct (tasks !! task_id) as [task|]; [|done].
  cbv zeta. destruct (H task eq_refl) as [H1 H2].
  by rewrite (validate_acyclic_transfer py1 py2).
Qed.


(** C7. After [update_task] on an existing id, the record under that id has:
    its prior title (description) when the title (description) is omitted or
    supplied as the empty string, and the supplied one otherwise; its prior
    status when the status is omitted and the supplied one otherwise; for
    dependencies, sources and steps the prior list when the argument is
    omitted and the supplied list, empty or not, otherwise.  The id is kept,
    and a snapshot that the call returns shows that record. *)
Theorem update_task_fields (py : Interpreter) (tasks : TaskMap) (task_id : string)
    (task : TaskNode)
    (new_title new_description : option string) (new_status : option TaskStatus)
    (new_dependencies : option (list Dependency)) (new_sources : option (list Source))
    (new_steps : option (list Step)) :
  tasks !! task_id = Some task →
  ∃ task',
    (update_task py task_id new_title new_description new_status new_dependencies
                 new_sources new_steps tasks).2 !! task_id = Some task' ∧
    id task' = id task ∧
    title task' = match new_title with
                  | None | Some "" => title task
                  | Some s => s
                  end ∧
    description task' = match new_description with
                        | None | Some "" => description task
                        | Some s => s
                        end ∧
    status task' = default (status task) new_status ∧
    dependencies task' = default (dependencies task) new_dependencies ∧
    sources task' = default (sources task) new_sources ∧
    steps task' = default (steps task) new_steps ∧
    ∀ snapshot,
      (update_task py task_id new_title new_description new_status new_dependencies
                   new_sources new_steps tasks).1 = inr snapshot →
      snapshot !! task_id = Some task'.
Proof.
  intros Htask. rewrite update_task_eq, Htask. cbv zeta.
  exists (apply_update new_title new_description new_status new_dependencies
            new_sources new_steps task).
  split.
  { destruct (validate_acyclic _ _); simpl; by rewrite lookup_insert_eq. }
  unfold apply_update. split_and!.
  - destruct new_status, new_dependencies, new_sources, new_steps; by simpl.
  - destruct new_title as [[|]|], new_status, new_dependencies, new_sources, new_steps;
      by simpl.
  - destruct new_description as [[|]|], new_status, new_dependencies, new_sources,
      new_steps; by simpl.
  - destruct new_status, new_dependencies, new_sources, new_steps; by simpl.
  - destruct new_status, new_dependencies, new_sources, new_steps; by simpl.
  - destruct new_status, new_dependencies, new_sources, new_steps; by simpl.
  - destruct new_status, new_dependencies, new_sources, new_steps; by simpl.
  - intros snapshot. destruct (validate_acyclic _ _); simpl; [done|].
    intros [= <-]. by rewrite lookup_insert_eq.
Qed.

Lemma update_task_fields_witness :
  let old := mkTaskNode "A" "first" "about" pending [] []
               [mkDependency "B" "A" required] in
  ∃ task',
    (update_task reference_interpreter "A" (Some "") None (Some completed) (Some []) None None
                 {[ "A" := old ]}).2 !! "A" = Some task' ∧
    title task' = "first" ∧ description task' = "about" ∧
    status task' = completed ∧ dependencies task' = [].
Proof.
  intros old.
  destruct (update_task_fields reference_interpreter {[ "A" := old ]} "A" old (Some "") None
              (Some completed) (Some []) None None) as (task' & H1 & _ & H2 & H3 & H4 & H5 & _).
  { by vm_compute. }
  exists task'. split_and!; done.
Defined.

(** C8. [create_task] raises the already-exists error if and only if the id
    is a key of the map, and then the map is unchanged.  When the id is fresh
    the new record is written: it carries the id and the supplied title and
    description, the supplied status or pending when it is omitted, and the
    supplied lists or empty lists when they are omitted.  When moreover the
    map with the new record has no cycle and its graph fits the recursion
    limit of the interpreter, the call returns that map. *)
Theorem create_task_spec (py : Interpreter) (tasks : TaskMap)
    (task_id title description : string)
    (status : option TaskStatus) (dependencies : option (list Dependency))
    (sources : option (list Source)) (steps : option (list Step)) :
  let outcome :=
    create_task py task_id title description status dependencies sources steps tasks in
  let task := {| id := task_id; title := title; description := description;
                 status := default pending status;
                 steps := default [] steps;
                 sources := default [] sources;
                 dependencies := default [] dependencies |} in
  ((∃ key, outcome.1 = inl (AlreadyExists key)) ↔ task_id ∈ dom tasks) ∧
  (task_id ∈ dom tasks → outcome = (inl (AlreadyExists task_id), tasks)) ∧
  (task_id ∉ dom tasks → outcome.2 = <[task_id := task]> tasks) ∧
  (task_id ∉ dom tasks → ¬ has_cycle (<[task_id := task]> tasks) →
   fits_recursion_limit py (<[task_id := task]> tasks) →
   outcome = (inr (<[task_id := task]> tasks), <[task_id := task]> tasks)).
Proof.
  cbv zeta. rewrite create_task_eq. unfold list_or_empty. cbv zeta.
  destruct (decide (task_id ∈ dom tasks)) as [Hin|Hnin].
  - split_and!; [|done..]. split; [done|]. intros _. by exists task_id.
  - split_and!.
    + split; [|done]. intros [key Hkey].
      destruct (validate_acyclic py _) as [e|] eqn:Hv; [|done].
      simpl in Hkey. injection Hkey as ->.
      by destruct (validate_acyclic_errors _ _ _ Hv).
    + done.
    + intros _. by destruct (validate_acyclic py _).
    + intros _ Hacyc Hfits. apply (validate_acyclic_ok py _ Hfits) in Hacyc.
      by rewrite Hacyc.
Qed.

(** C9. The dependency gate is only in [update_task_status].  On a map
    whose task A is pending, [create_task] with status completed, and
    likewise with status in_progress, returns for a task B that lists a
    required dependency on A and stores B with that status; [update_task]
    with status completed returns for such a B as well, where
    [update_task_status] with the same status raises the
    unsatisfied-dependencies error.  In each case B ends with the requested
    status while [can_execute] is false for it.  This is so on every
    interpreter that allows more than two nested calls. *)
Theorem dependency_gate_only_in_update_task_status (py : Interpreter) :
  2 < recursion_limit py →
  let upstream := mkTaskNode "A" "first" "" pending [] [] [] in
  let edge_AB := mkDependency "A" "B" required in
  let downstream wanted := mkTaskNode "B" "second" "" wanted [] [] [edge_AB] in
  let stored wanted : TaskMap := {[ "A" := upstream; "B" := downstream wanted ]} in
  (∀ wanted, wanted = completed ∨ wanted = in_progress →
     create_task py "B" "second" "" (Some wanted) (Some [edge_AB]) None None
                 {[ "A" := upstream ]} = (inr (stored wanted), stored wanted) ∧
     can_execute (stored wanted) "B" = false) ∧
  update_task py "B" None None (Some completed) None None None (stored pending) =
    (inr (stored completed), stored completed) ∧
  can_execute (stored completed) "B" = false ∧
  update_task_status "B" completed (stored pending) =
    (inl DependenciesUnsatisfied, stored pending).
Proof.
  intros Hlimit. cbv zeta.
  assert (∀ tasks, size (nodes (build_graph tasks)) = 2 →
            fits_recursion_limit py tasks ∧ fits_recursion_limit reference_interpreter tasks)
    as Hfits.
  { intros tasks Hsize. unfold fits_recursion_limit. rewrite Hsize. simpl. lia. }
  split_and!.
  - intros wanted [-> | ->]; (split; [|by vm_compute]).
    + rewrite (create_task_transfer py reference_interpreter); [by vm_compute|..];
        apply Hfits; by vm_compute.
    + rewrite (create_task_transfer py reference_interpreter); [by vm_compute|..];
        apply Hfits; by vm_compute.
  - rewrite (update_task_transfer py reference_interpreter); [by vm_compute|].
    intros task Htask. vm_compute in Htask. injection Htask as <-.
    apply Hfits. by vm_compute.
  - by vm_compute.
  - by vm_compute.
Qed.

Lemma dependency_gate_only_in_update_task_status_witness :
  2 < recursion_limit reference_interpreter ∧
  let tasks : TaskMap :=
    {[ "A" := mkTaskNode "A" "first" "" pending [] [] [];
       "B" := mkTaskNode "B" "second" "" pending [] [] [mkDependency "A" "B" required] ]} in
  update_task_status "B" completed tasks = (inl DependenciesUnsatisfied, tasks).
Proof.
  assert (2 < recursion_limit reference_interpreter) as Hlimit.
  { apply (bool_decide_unpack _). by vm_compute. }
  split; [done|].
  apply (dependency_gate_only_in_update_task_status reference_interpreter Hlimit).
Defined.

(** ** Claims about failed validation *)




(** C2, as the code has it.  Start from the empty map and run any sequence of
    calls.  A further call that returns leaves a map without cycle, on which
    [validate_acyclic] raises no cycle error, provided either that no call of
    the sequence failed in validation (with the cycle error, or with the
    recursion error of a traversal deeper than the interpreter allows), or
    that the further call is a create or an update.  On that map
    [validate_acyclic] returns when its graph fits the recursion limit, and
    also when the further call is a create or an update.  Calls that failed
    for other reasons are allowed anywhere in the sequence. *)
Theorem success_boundaries_acyclic (py : Interpreter) (calls : list Call) (c : Call)
    (snapshot after : TaskMap) :
  call py c (run py calls ∅).2 = (inr snapshot, after) →
  (inl CycleDetected ∉ (run py calls ∅).1) ∧ (inl RecursionError ∉ (run py calls ∅).1) ∨
    validates c = true →
  ¬ has_cycle after ∧
  validate_acyclic py after ≠ inl CycleDetected ∧
  (fits_recursion_limit py after ∨ validates c = true → validate_acyclic py after = inr ()).
Proof.
  intros Hcall Hwhy.
  assert (validates c = true → validate_acyclic py after = inr ()) as Hsame.
  { intros Hval. destruct (changes c (run py calls ∅).2) as [written|] eqn:Hch.
    - rewrite (changes_call _ _ _ _ Hch) in Hcall.
      destruct (validate_acyclic py written) as [e|[]] eqn:Hv; [done|].
      by injection Hcall as <- <-.
    - destruct c as [k ti de st ds so sp|k nt nd ns nds nso nsp|k st|k cascade];
        simpl in *; [| |done..].
      + rewrite create_task_eq in Hcall. by case_decide.
      + rewrite update_task_eq in Hcall. by destruct (_ !! k). }
  assert (¬ has_cycle after) as Hacyc.
  { destruct Hwhy as [[Hcyc Hrec]|Hval].
    - pose proof (run_preserves_acyclic py calls ∅ has_cycle_empty Hcyc Hrec) as Hbefore.
      pose proof (call_preserves_acyclic py c _ Hbefore) as Hc.
      rewrite Hcall in Hc. by apply Hc.
    - by apply (validate_acyclic_returns_sound py), Hsame. }
  split_and!.
  - done.
  - by intros ?%validate_acyclic_raises_sound.
  - intros [Hfits|Hval]; [by apply validate_acyclic_ok|by apply Hsame].
Qed.

Lemma success_boundaries_acyclic_witness :
  let py := reference_interpreter in
  let calls := [Create "A" "first" "" None None None None;
                Create "A" "again" "" None None None None;
                Create "B" "second" "" None (Some [mkDependency "A" "B" required]) None None] in
  let after := (call py (UpdateStatus "A" completed) (run py calls ∅).2).2 in
  ((inl CycleDetected ∉ (run py calls ∅).1) ∧ (inl RecursionError ∉ (run py calls ∅).1)) ∧
  ¬ has_cycle after ∧ validate_acyclic py after ≠ inl CycleDetected.
Proof.
  intros py calls after.
  assert ((inl CycleDetected ∉ (run py calls ∅).1) ∧
          (inl RecursionError ∉ (run py calls ∅).1)) as Hclean.
  { split; apply (bool_decide_unpack _); by vm_compute. }
  split; [done|].
  destruct (success_boundaries_acyclic py calls (UpdateStatus "A" completed) after after)
    as (Hacyc & Hno & _).
  - by vm_compute.
  - by left.
  - done.
Defined.

(** C2 fails as stated.  From the empty map, a create that closes a cycle
    raises the cycle error and leaves its record; the status update that
    follows returns, and [validate_acyclic] raises the cycle error on the map
    it returns. *)
Lemma success_after_cycle_failure_is_cyclic :
  let py := reference_interpreter in
  let self_loop := mkDependency "A" "A" required in
  let calls := [Create "A" "first" "" None (Some [self_loop]) None None;
                UpdateStatus "A" skipped] in
  let written : TaskMap := {[ "A" := mkTaskNode "A" "first" "" pending [] [] [self_loop] ]} in
  let after : TaskMap := {[ "A" := mkTaskNode "A" "first" "" skipped [] [] [self_loop] ]} in
  run py calls ∅ = ([inl CycleDetected; inr after], after) ∧
  run py (take 1 calls) ∅ = ([inl CycleDetected], written) ∧
  call py (UpdateStatus "A" skipped) written = (inr after, after) ∧
  validate_acyclic py after = inl CycleDetected.
Proof.
  cbv zeta. split_and!; by vm_compute.
Qed.

(** ** Scenarios *)

(** A, then B depending on A; completing A and then B goes through. *)
Example complete_in_order :
  raised <$> (run reference_interpreter
                  [Create "A" "first" "" None None None None;
                   Create "B" "second" "" None (Some [mkDependency "A" "B" required]) None None;
                   UpdateStatus "A" completed;
                   UpdateStatus "B" completed] ∅).1
  = [None; None; None; None].
Proof. by vm_compute. Qed.

(** Completing B before A is refused, for a required and for an optional
    dependency, and allowed for a soft one. *)
Example complete_out_of_order :
  (∀ kind, kind = required ∨ kind = optional →
     raised <$> (run reference_interpreter
                     [Create "A" "first" "" None None None None;
                      Create "B" "second" "" None (Some [mkDependency "A" "B" kind]) None None;
                      UpdateStatus "B" completed] ∅).1
     = [None; None; Some DependenciesUnsatisfied]) ∧
  raised <$> (run reference_interpreter
                  [Create "A" "first" "" None None None None;
                   Create "B" "second" "" None (Some [mkDependency "A" "B" soft]) None None;
                   UpdateStatus "B" completed] ∅).1
  = [None; None; None].
Proof. split; [intros kind [-> | ->]|]; by vm_compute. Qed.

(** An edge is followed from whatever record holds it: the two edges of this
    cycle both sit on the record of C, which is neither of their ends. *)
Example cycle_through_foreign_record :
  validate_acyclic reference_interpreter
    {[ "C" := mkTaskNode "C" "third" "" pending [] []
                [mkDependency "A" "B" required; mkDependency "B" "A" soft] ]}
  = inl CycleDetected.
Proof. by vm_compute. Qed.

(** A dangling edge is no cycle. *)
Example dangling_edge_is_acyclic :
  validate_acyclic reference_interpreter
    {[ "B" := mkTaskNode "B" "second" "" pending [] [] [mkDependency "gone" "B" required] ]}
  = inr ().
Proof. by vm_compute. Qed.

(** Beyond the recursion limit the outcome depends on the order of the keys.
    On the chain from C over A and B to D, which has no cycle, an interpreter
    that allows three nested calls raises the recursion error when it starts
    from the head of the chain and returns when it takes the keys from the far
    end; one that allows five returns. *)
Example recursion_limit_and_key_order :
  let chain : TaskMap :=
    {[ "C" := mkTaskNode "C" "first" "" pending [] [] [mkDependency "C" "A" required];
       "A" := mkTaskNode "A" "second" "" pending [] [] [mkDependency "A" "B" required];
       "B" := mkTaskNode "B" "third" "" pending [] [] [mkDependency "B" "D" required] ]} in
  elements (dom (build_graph chain)) = ["C"; "A"; "B"] ∧
  validate_acyclic (mkInterpreter 3 (λ keys, keys) (λ keys, reflexivity keys)) chain =
    inl RecursionError ∧
  validate_acyclic (mkInterpreter 3 reverse reverse_Permutation) chain = inr () ∧
  validate_acyclic (mkInterpreter 5 (λ keys, keys) (λ keys, reflexivity keys)) chain = inr ().
Proof. cbv zeta. split_and!; by vm_compute. Qed.

(** * Further properties of the task tools *)

(** ** What validation depends on *)

Lemma has_cycle_edge_ext tasks1 tasks2 :
  (∀ u v, edge tasks1 u v ↔ edge tasks2 u v) → has_cycle tasks1 ↔ has_cycle tasks2.
Proof. intros H. split; apply has_cycle_mono; intros u v; by rewrite H. Qed.

Lemma validate_acyclic_ext py1 py2 tasks1 tasks2 :
  fits_recursion_limit py1 tasks1 → fits_recursion_limit py2 tasks2 →
  (has_cycle tasks1 ↔ has_cycle tasks2) →
  validate_acyclic py1 tasks1 = validate_acyclic py2 tasks2.
Proof.
  intros Hfits1 Hfits2 H.
  destruct (validate_acyclic_cases py1 tasks1) as [[-> H1]|[[-> H1]|[_ H1]]],
           (validate_acyclic_cases py2 tasks2) as [[-> H2]|[[-> H2]|[_ H2]]]; tauto.
Qed.

(** Two maps that build the same graph get the same outcome on the same
    interpreter, whatever its recursion limit. *)
Lemma validate_acyclic_same_graph py tasks1 tasks2 :
  build_graph tasks1 = build_graph tasks2 →
  validate_acyclic py tasks1 = validate_acyclic py tasks2.
Proof. intros H. unfold validate_acyclic. by rewrite H. Qed.

Lemma edge_insert_fresh tasks key task u v :
  tasks !! key = None → edge tasks u v → edge (<[key := task]> tasks) u v.
Proof.
  intros Hkey (k & t & d & Hk & Hd). exists k, t, d. split; [|done].
  rewrite lookup_insert_ne; [done|]. intros ->. by rewrite Hkey in Hk.
Qed.

Lemma edge_insert_same_dependencies_iff tasks key task task' u v :
  tasks !! key = Some task → dependencies task' = dependencies task →
  edge (<[key := task']> tasks) u v ↔ edge tasks u v.
Proof.
  intros Hkey Hdeps. split; [by eapply edge_insert_same_dependencies|].
  intros (k & t & d & Hk & Hd & Huv). destruct (decide (key = k)) as [->|Hne].
  - exists k, task', d. rewrite lookup_insert_eq, Hdeps.
    rewrite Hkey in Hk. by injection Hk as ->.
  - exists k, t, d. by rewrite lookup_insert_ne.
Qed.

(** Replacing a record by one with the same dependency list leaves the built
    graph as it was. *)
Lemma build_graph_insert_same_dependencies tasks key task task' :
  tasks !! key = Some task → dependencies task' = dependencies task →
  build_graph (<[key := task']> tasks) = build_graph tasks.
Proof.
  intros Hkey Hdeps. apply build_graph_ext.
  - rewrite dom_insert_L. apply elem_of_dom_2 in Hkey. set_solver.
  - intros u v. by apply (edge_insert_same_dependencies_iff _ _ task).
Qed.

(** X1. Within the recursion limit [validate_acyclic] depends on nothing but
    the set of ([from_task], [to]) pairs found in the map: two maps with the
    same pairs, whichever records hold them and whatever else the records
    say, get the same outcome, on any two interpreters whose limit the graphs
    fit. *)
Theorem validate_acyclic_edges_only (py1 py2 : Interpreter) (tasks1 tasks2 : TaskMap) :
  fits_recursion_limit py1 tasks1 → fits_recursion_limit py2 tasks2 →
  (∀ u v, edge tasks1 u v ↔ edge tasks2 u v) →
  validate_acyclic py1 tasks1 = validate_acyclic py2 tasks2.
Proof. intros H1 H2 H. by apply validate_acyclic_ext; [..|apply has_cycle_edge_ext]. Qed.

Lemma validate_acyclic_edges_only_witness :
  validate_acyclic reference_interpreter
    {[ "C" := mkTaskNode "C" "third" "" pending [] []
                [mkDependency "A" "B" required; mkDependency "A" "B" soft] ]} =
  validate_acyclic (mkInterpreter 5 reverse reverse_Permutation)
    {[ "A" := mkTaskNode "A" "first" "" completed [] [] [];
       "B" := mkTaskNode "B" "second" "" blocked [] [] [mkDependency "A" "B" optional] ]}.
Proof.
  apply validate_acyclic_edges_only.
  - apply (bool_decide_unpack _). by vm_compute.
  - apply (bool_decide_unpack _). by vm_compute.
  - intros u v. split.
    + intros (k & t & d & Hk & Hd & <- & <-).
      apply lookup_singleton_Some in Hk as [<- <-]. simpl in Hd.
      exists "B", (mkTaskNode "B" "second" "" blocked [] [] [mkDependency "A" "B" optional]),
        (mkDependency "A" "B" optional).
      split; [by vm_compute|]. split; [by left|].
      apply elem_of_cons in Hd as [->|Hd]; [done|].
      apply elem_of_cons in Hd as [->|Hd]; [done|]. by apply elem_of_nil in Hd.
    + intros (k & t & d & Hk & Hd & <- & <-).
      exists "C", (mkTaskNode "C" "third" "" pending [] []
                     [mkDependency "A" "B" required; mkDependency "A" "B" soft]),
        (mkDependency "A" "B" required).
      split; [by vm_compute|]. split; [by left|].
      apply lookup_insert_Some in Hk as [[<- <-]|[_ Hk]]; [by apply elem_of_nil in Hd|].
      apply lookup_singleton_Some in Hk as [<- <-]. simpl in Hd.
      apply elem_of_cons in Hd as [->|Hd]; [done|]. by apply elem_of_nil in Hd.
Defined.

(** X2. [update_task_status] never changes what [validate_acyclic] says:
    whether the call returns or raises, the map it leaves validates exactly
    as the map it was given. *)
Theorem update_task_status_keeps_validation (py : Interpreter) (tasks : TaskMap)
    (task_id : string) (new_status : TaskStatus) :
  validate_acyclic py (update_task_status task_id new_status tasks).2 =
  validate_acyclic py tasks.
Proof.
  rewrite update_task_status_eq.
  destruct (tasks !! task_id) as [task|] eqn:Htask; [|done].
  destruct (_ && _); [done|]. simpl.
  apply validate_acyclic_same_graph.
  by apply (build_graph_insert_same_dependencies _ _ task).
Qed.

(** X3. [delete_task] never creates a cycle: on a map on which
    [validate_acyclic] returns, the map left by a delete, cascading or not,
    found or not, has no cycle, so [validate_acyclic] raises no cycle error
    on it, and returns when the graph of that map fits the recursion limit. *)
Theorem delete_task_keeps_acyclic (py : Interpreter) (tasks : TaskMap) (task_id : string)
    (cascade : bool) :
  validate_acyclic py tasks = inr () →
  let after := (delete_task task_id cascade tasks).2 in
  ¬ has_cycle after ∧
  validate_acyclic py after ≠ inl CycleDetected ∧
  (fits_recursion_limit py after → validate_acyclic py after = inr ()).
Proof.
  intros Hacyc%validate_acyclic_returns_sound. cbv zeta.
  assert (¬ has_cycle (delete_task task_id cascade tasks).2) as Hafter.
  { apply (call_preserves_acyclic py (Delete task_id cascade) tasks Hacyc);
      simpl; rewrite delete_task_eq; by case_decide. }
  split_and!.
  - done.
  - by intros ?%validate_acyclic_raises_sound.
  - intros Hfits. by apply validate_acyclic_ok.
Qed.

Lemma delete_task_keeps_acyclic_witness :
  let py := reference_interpreter in
  let tasks : TaskMap :=
    {[ "A" := mkTaskNode "A" "first" "" pending [] [] [];
       "B" := mkTaskNode "B" "second" "" pending [] [] [mkDependency "A" "B" required] ]} in
  validate_acyclic py tasks = inr () ∧
  validate_acyclic py (delete_task "A" true tasks).2 ≠ inl CycleDetected.
Proof.
  intros py tasks. split; [by vm_compute|].
  apply (delete_task_keeps_acyclic py tasks "A" true). by vm_compute.
Defined.

(** ** Creating and updating around cycles *)

Lemma has_cycle_self_edge tasks u : edge tasks u u → has_cycle tasks.
Proof. intros H. exists u. by apply tc_once. Qed.

(** A create for a fresh id whose written map has a cycle does not return. *)
Lemma create_task_cyclic_written py task_id title description status dependencies sources
    steps tasks :
  let written := <[task_id := mkTaskNode task_id title description (default pending status)
                                (default [] steps) (default [] sources)
                                (default [] dependencies)]> tasks in
  task_id ∉ dom tasks →
  has_cycle written →
  ∃ e,
    create_task py task_id title description status dependencies sources steps tasks =
      (inl e, written) ∧
    (e = CycleDetected ∨ e = RecursionError) ∧
    (fits_recursion_limit py written → e = CycleDetected).
Proof.
  cbv zeta. intros Hfresh Hcyc.
  rewrite create_task_eq, decide_False by done. cbv zeta. unfold list_or_empty.
  match goal with |- context [validate_acyclic py ?m] =>
    destruct (validate_acyclic_cases py m) as [[-> _]|[[_ ?]|[-> ?]]] end.
  - exists CycleDetected. split_and!; [done|by left|done].
  - done.
  - exists RecursionError. split_and!; [done|by right|done].
Qed.

(** X4. On a map on which [validate_acyclic] raises the cycle error no task
    can be created: for a fresh id, whatever the arguments, [create_task]
    raises, the cycle error or, when the graph with the new record is beyond
    the recursion limit, possibly the recursion error, and the record it
    wrote stays in the map. *)
Theorem create_task_on_cyclic_map (py : Interpreter) (tasks : TaskMap)
    (task_id title description : string)
    (status : option TaskStatus) (dependencies : option (list Dependency))
    (sources : option (list Source)) (steps : option (list Step)) :
  validate_acyclic py tasks = inl CycleDetected →
  task_id ∉ dom tasks →
  let written := <[task_id := mkTaskNode task_id title description (default pending status)
                                (default [] steps) (default [] sources)
                                (default [] dependencies)]> tasks in
  ∃ e,
    create_task py task_id title description status dependencies sources steps tasks =
      (inl e, written) ∧
    (e = CycleDetected ∨ e = RecursionError) ∧
    (fits_recursion_limit py written → e = CycleDetected).
Proof.
  intros Hcyc%validate_acyclic_raises_sound Hfresh.
  apply create_task_cyclic_written; [done|].
  eapply has_cycle_mono; [|exact Hcyc].
  intros u v. apply edge_insert_fresh. by apply not_elem_of_dom.
Qed.

Lemma create_task_on_cyclic_map_witness :
  let py := reference_interpreter in
  let tasks : TaskMap :=
    {[ "A" := mkTaskNode "A" "first" "" pending [] [] [mkDependency "A" "A" required] ]} in
  validate_acyclic py tasks = inl CycleDetected ∧
  ∃ e, (create_task py "B" "second" "" None None None None tasks).1 = inl e.
Proof.
  intros py tasks. split; [by vm_compute|].
  destruct (create_task_on_cyclic_map py tasks "B" "second" "" None None None None)
    as (e & He & _).
  - by vm_compute.
  - apply (bool_decide_unpack _). by vm_compute.
  - exists e. by rewrite He.
Defined.



(** X6. On a map on which [validate_acyclic] returns, creating a fresh task
    without dependencies (omitted or the empty list) returns, provided the
    graph with the new record fits the recursion limit. *)
Theorem create_task_without_dependencies (py : Interpreter) (tasks : TaskMap)
    (task_id title description : string)
    (status : option TaskStatus) (dependencies : option (list Dependency))
    (sources : option (list Source)) (steps : option (list Step)) :
  validate_acyclic py tasks = inr () →
  task_id ∉ dom tasks →
  dependencies = None ∨ dependencies = Some [] →
  fits_recursion_limit py
    (<[task_id := mkTaskNode task_id title description (default pending status)
                    (default [] steps) (default [] sources) []]> tasks) →
  ∃ after,
    create_task py task_id title description status dependencies sources steps tasks =
      (inr after, after) ∧
    after !! task_id = Some (mkTaskNode task_id title description (default pending status)
                               (default [] steps) (default [] sources) []).
Proof.
  intros Hok%validate_acyclic_returns_sound Hfresh Hdeps Hfits.
  assert (list_or_empty dependencies = []) as Hnil by (by destruct Hdeps as [-> | ->]).
  rewrite create_task_eq, decide_False by done. cbv zeta. rewrite Hnil.
  unfold list_or_empty.
  match goal with |- context [validate_acyclic py ?m] =>
    assert (validate_acyclic py m = inr ()) as ->
  end.
  - apply validate_acyclic_ok; [done|]. intros Hcyc. apply Hok.
    eapply has_cycle_mono; [|exact Hcyc].
    intros u v (k & t & d & Hk & Hd & Huv).
    apply lookup_insert_Some in Hk as [[_ <-]|[_ Hk]]; [by apply elem_of_nil in Hd|].
    by exists k, t, d.
  - eexists. split; [done|]. by rewrite lookup_insert_eq.
Qed.

Lemma create_task_without_dependencies_witness :
  let tasks : TaskMap := {[ "A" := mkTaskNode "A" "first" "" pending [] [] [] ]} in
  ∃ after,
    create_task reference_interpreter "B" "second" "" (Some blocked) (Some []) None None tasks =
      (inr after, after) ∧
    after !! "B" = Some (mkTaskNode "B" "second" "" blocked [] [] []).
Proof.
  apply (create_task_without_dependencies reference_interpreter _ "B" "second" ""
           (Some blocked) (Some []) None None).
  - by vm_compute.
  - apply (bool_decide_unpack _). by vm_compute.
  - by right.
  - apply (bool_decide_unpack _). by vm_compute.
Defined.

(** X7. A dependency from a task to itself is always refused: a create for a
    fresh id whose list holds a dependency with equal [from_task] and [to],
    of any type and between any ids, does not return.  It raises the cycle
    error or, when the graph with the new record is beyond the recursion
    limit, possibly the recursion error, and leaves the record it wrote. *)
Theorem create_task_self_dependency (py : Interpreter) (tasks : TaskMap)
    (task_id title description : string)
    (status : option TaskStatus) (dependencies : list Dependency)
    (sources : option (list Source)) (steps : option (list Step)) (d : Dependency) :
  task_id ∉ dom tasks →
  d ∈ dependencies →
  from_task d = to d →
  let written := <[task_id := mkTaskNode task_id title description (default pending status)
                                (default [] steps) (default [] sources) dependencies]> tasks in
  ∃ e,
    create_task py task_id title description status (Some dependencies) sources steps tasks =
      (inl e, written) ∧
    (e = CycleDetected ∨ e = RecursionError) ∧
    (fits_recursion_limit py written → e = CycleDetected).
Proof.
  intros Hfresh Hd Hself.
  apply (create_task_cyclic_written py task_id title description status
           (Some dependencies)); [done|].
  apply (has_cycle_self_edge _ (from_task d)).
  eexists task_id, _, d. rewrite lookup_insert_eq. by split_and!.
Qed.

Lemma create_task_self_dependency_witness :
  (create_task reference_interpreter "A" "first" "" None
     (Some [mkDependency "X" "Y" required; mkDependency "Z" "Z" soft]) None None ∅).1 =
  inl CycleDetected.
Proof.
  destruct (create_task_self_dependency reference_interpreter ∅ "A" "first" "" None
              [mkDependency "X" "Y" required; mkDependency "Z" "Z" soft] None None
              (mkDependency "Z" "Z" soft)) as (e & He & _ & Hfits).
  - apply not_elem_of_empty.
  - right. left.
  - reflexivity.
  - rewrite He. simpl. f_equal. apply Hfits.
    apply (bool_decide_unpack _). by vm_compute.
Defined.

(** ** How the tools compose *)

(** X8. A delete without cascade undoes a create: for a fresh id, whether
    [create_task] returned or raised the cycle error, [delete_task] on the
    same id returns the map as it was before the create, and [get_task]
    between the two finds the record that the create wrote. *)
Theorem delete_undoes_create (py : Interpreter) (tasks : TaskMap)
    (task_id title description : string)
    (status : option TaskStatus) (dependencies : option (list Dependency))
    (sources : option (list Source)) (steps : option (list Step)) :
  task_id ∉ dom tasks →
  let written :=
    (create_task py task_id title description status dependencies sources steps tasks).2 in
  (get_task task_id written).1 =
    inr (Some (mkTaskNode task_id title description (default pending status)
                 (default [] steps) (default [] sources) (default [] dependencies))) ∧
  delete_task task_id false written = (inr tasks, tasks).
Proof.
  intros Hfresh written. subst written. rewrite create_task_eq, decide_False by done.
  cbv zeta. unfold list_or_empty.
  match goal with |- context [validate_acyclic py ?m] => destruct (validate_acyclic py m) end;
    simpl; rewrite lookup_insert_eq; (split; [done|]);
    rewrite delete_task_eq, decide_False by (rewrite dom_insert_L; set_solver);
    cbv zeta; by rewrite delete_insert_id by (by apply not_elem_of_dom).
Qed.

Lemma delete_undoes_create_witness :
  let tasks : TaskMap := {[ "A" := mkTaskNode "A" "first" "" pending [] [] [] ]} in
  let written :=
    (create_task reference_interpreter "B" "second" "" None
       (Some [mkDependency "B" "B" required]) None None tasks).2 in
  written ≠ tasks ∧ delete_task "B" false written = (inr tasks, tasks).
Proof.
  split.
  - intros H. apply (f_equal (λ m : TaskMap, m !! "B")) in H.
    vm_compute in H. discriminate H.
  - apply (delete_undoes_create reference_interpreter _ "B" "second" "" None
             (Some [mkDependency "B" "B" required]) None None).
    apply (bool_decide_unpack _). by vm_compute.
Defined.

(** X9. After any [create_task] for an id, returned or raised, a second
    create for that id raises the already-exists error and changes nothing. *)
Theorem create_task_twice (py : Interpreter) (tasks : TaskMap)
    (task_id title1 description1 : string)
    (status1 : option TaskStatus) (dependencies1 : option (list Dependency))
    (sources1 : option (list Source)) (steps1 : option (list Step))
    (title2 description2 : string)
    (status2 : option TaskStatus) (dependencies2 : option (list Dependency))
    (sources2 : option (list Source)) (steps2 : option (list Step)) :
  let written :=
    (create_task py task_id title1 description1 status1 dependencies1 sources1 steps1
       tasks).2 in
  create_task py task_id title2 description2 status2 dependencies2 sources2 steps2 written =
    (inl (AlreadyExists task_id), written).
Proof.
  cbv zeta. rewrite (create_task_eq _ _ _ _ _ _ _ _ (_.2)).
  rewrite decide_True; [done|].
  rewrite create_task_eq. case_decide; [done|]. cbv zeta.
  match goal with |- context [validate_acyclic py ?m] => destruct (validate_acyclic py m) end;
    simpl; rewrite dom_insert_L; set_solver.
Qed.

Lemma dependency_satisfied_completing tasks key task d :
  tasks !! key = Some task →
  dependency_satisfied tasks d = true →
  dependency_satisfied (<[key := set_status task completed]> tasks) d = true.
Proof.
  intros Hkey. unfold dependency_satisfied. case_decide; [done|].
  destruct (decide (key = from_task d)) as [->|Hne].
  - by rewrite lookup_insert_eq.
  - by rewrite lookup_insert_ne.
Qed.

(** X10. Completing a task never blocks another: a task that [can_execute]
    accepts is still accepted after [update_task_status] with status
    completed on any id, whether that call returned or raised. *)
Theorem completing_never_blocks (tasks : TaskMap) (task_id other : string) :
  can_execute tasks other = true →
  can_execute (update_task_status task_id completed tasks).2 other = true.
Proof.
  rewrite update_task_status_eq.
  destruct (tasks !! task_id) as [task|] eqn:Htask; [|done].
  destruct (_ && _); [done|]. simpl. unfold can_execute.
  destruct (decide (task_id = other)) as [->|Hne].
  - rewrite lookup_insert_eq, Htask. simpl. rewrite !forallb_forall.
    intros Hsat d Hd. by apply dependency_satisfied_completing, Hsat.
  - rewrite lookup_insert_ne by done. destruct (tasks !! other) as [t|]; [|done].
    rewrite !forallb_forall.
    intros Hsat d Hd. by apply dependency_satisfied_completing, Hsat.
Qed.

Lemma completing_never_blocks_witness :
  let tasks : TaskMap :=
    {[ "A" := mkTaskNode "A" "first" "" completed [] [] [];
       "B" := mkTaskNode "B" "second" "" pending [] [] [mkDependency "A" "B" required];
       "C" := mkTaskNode "C" "third" "" pending [] [] [mkDependency "B" "C" required] ]} in
  can_execute tasks "B" = true ∧
  can_execute (update_task_status "C" completed tasks).2 "B" = true.
Proof.
  split; [by vm_compute|]. apply completing_never_blocks. by vm_compute.
Defined.

(** X11. Deleting an upstream task without cascade blocks its dependents: a
    remaining task that lists a dependency of a type other than soft from the
    deleted id is refused by [can_execute] afterwards. *)
Theorem plain_delete_blocks_dependents (tasks : TaskMap) (T other : string)
    (task : TaskNode) (d : Dependency) :
  T ∈ dom tasks → other ≠ T →
  tasks !! other = Some task →
  d ∈ dependencies task → type d ≠ soft → from_task d = T →
  can_execute (delete_task T false tasks).2 other = false.
Proof.
  intros HT Hne Hother Hd Hsoft Hfrom.
  rewrite delete_task_eq, decide_False by (by intros ?). simpl.
  apply (can_execute_false _ _ task); [by rewrite lookup_delete_ne|].
  exists d. split_and!; [done..|]. left. by rewrite Hfrom, lookup_delete_eq.
Qed.

Lemma plain_delete_blocks_dependents_witness :
  let tasks : TaskMap :=
    {[ "A" := mkTaskNode "A" "first" "" completed [] [] [];
       "B" := mkTaskNode "B" "second" "" pending [] [] [mkDependency "A" "B" optional] ]} in
  can_execute tasks "B" = true ∧
  can_execute (delete_task "A" false tasks).2 "B" = false.
Proof.
  split; [by vm_compute|].
  apply (plain_delete_blocks_dependents _ "A" "B"
           (mkTaskNode "B" "second" "" pending [] [] [mkDependency "A" "B" optional])
           (mkDependency "A" "B" optional)).
  - apply (bool_decide_unpack _). by vm_compute.
  - done.
  - by vm_compute.
  - by left.
  - done.
  - done.
Defined.

(** X12. After a cascading delete of T no record of the map lists a
    dependency whose [from_task] is T: in the aggregated graph T has no
    outgoing edge left, on whichever records those edges were stored. *)
Theorem cascade_delete_clears_outgoing_edges (tasks : TaskMap) (T v : string) :
  T ∈ dom tasks →
  ¬ edge (delete_task T true tasks).2 T v.
Proof.
  intros HT. rewrite delete_task_eq, decide_False by (by intros ?). simpl.
  intros (k & t & d & Hk & Hd & Hfrom & _).
  rewrite lookup_fmap in Hk. destruct (delete T tasks !! k) as [t0|]; [|done].
  injection Hk as <-. simpl in Hd. by apply list_elem_of_filter in Hd as [? _].
Qed.

Lemma cascade_delete_clears_outgoing_edges_witness :
  let tasks : TaskMap :=
    {[ "T" := mkTaskNode "T" "first" "" pending [] [] [];
       "U" := mkTaskNode "U" "second" "" pending [] [] [mkDependency "T" "U" required] ]} in
  edge tasks "T" "U" ∧ ¬ edge (delete_task "T" true tasks).2 "T" "U".
Proof.
  split.
  - exists "U", (mkTaskNode "U" "second" "" pending [] [] [mkDependency "T" "U" required]),
      (mkDependency "T" "U" required).
    split; [by vm_compute|]. split; [by left|done].
  - apply cascade_delete_clears_outgoing_edges. apply (bool_decide_unpack _). by vm_compute.
Defined.

(** X13. A cascading delete releases the dependents of the deleted task: a
    remaining task whose dependencies of a type other than soft from every
    other id point to completed tasks is accepted by [can_execute]
    afterwards, whatever the status of the deleted task was. *)
Theorem cascade_delete_releases_dependents (tasks : TaskMap) (T other : string)
    (task : TaskNode) :
  T ∈ dom tasks → other ≠ T →
  tasks !! other = Some task →
  (∀ d, d ∈ dependencies task → type d ≠ soft → from_task d ≠ T →
        ∃ upstream, tasks !! from_task d = Some upstream ∧ status upstream = completed) →
  can_execute (delete_task T true tasks).2 other = true.
Proof.
  intros HT Hne Hother Hsat.
  rewrite delete_task_eq, decide_False by (by intros ?). simpl.
  unfold can_execute. rewrite lookup_fmap, lookup_delete_ne, Hother by done. simpl.
  apply forallb_forall. intros d [Hfrom Hd]%list_elem_of_In%list_elem_of_filter.
  unfold dependency_satisfied. case_decide as Hsoft; [done|].
  destruct (Hsat d Hd Hsoft Hfrom) as (up & Hup & Hst).
  rewrite lookup_fmap, lookup_delete_ne, Hup by done. simpl.
  by apply bool_decide_eq_true.
Qed.

Lemma cascade_delete_releases_dependents_witness :
  let tasks : TaskMap :=
    {[ "A" := mkTaskNode "A" "first" "" completed [] [] [];
       "T" := mkTaskNode "T" "second" "" pending [] [] [];
       "U" := mkTaskNode "U" "third" "" pending [] []
                [mkDependency "T" "U" required; mkDependency "A" "U" required] ]} in
  can_execute tasks "U" = false ∧
  can_execute (delete_task "T" true tasks).2 "U" = true.
Proof.
  split; [by vm_compute|].
  apply (cascade_delete_releases_dependents _ "T" "U"
           (mkTaskNode "U" "third" "" pending [] []
              [mkDependency "T" "U" required; mkDependency "A" "U" required])).
  - apply (bool_decide_unpack _). by vm_compute.
  - done.
  - by vm_compute.
  - intros d Hd _ Hfrom. simpl in Hd.
    apply elem_of_cons in Hd as [->|Hd]; [done|].
    apply elem_of_cons in Hd as [->|Hd]; [|by apply elem_of_nil in Hd].
    exists (mkTaskNode "A" "first" "" completed [] [] []). split; by vm_compute.
Defined.

(** ** The order of the traversal *)

(** X14. The outcome of the traversal does not depend on the order in which
    the top-level loop takes the keys of the graph, nor on the depth budget
    as long as it exceeds the number of nodes: it raises the cycle error when
    the dependency graph of the map has a cycle and returns otherwise. *)
Theorem traversal_order_irrelevant (tasks : TaskMap) (keys : list string) (depth : nat) :
  keys ≡ₚ elements (dom (build_graph tasks)) →
  size (nodes (build_graph tasks)) < depth →
  match for_each (visit depth (build_graph tasks)) keys (mkMarks ∅ ∅) with
  | inl e => e = CycleDetected ∧ has_cycle tasks
  | inr _ => ¬ has_cycle tasks
  end.
Proof.
  intros Hperm Hdepth.
  pose proof (traversal_outcome (build_graph tasks) depth keys Hdepth) as H.
  destruct (for_each _ _ _).
  - rewrite <-cyclic_build_graph. apply H. intros v. by rewrite Hperm, elem_of_elements.
  - rewrite <-cyclic_build_graph. apply H. intros v. by rewrite Hperm, elem_of_elements.
Qed.

Lemma traversal_order_irrelevant_witness :
  let tasks : TaskMap :=
    {[ "A" := mkTaskNode "A" "first" "" pending [] [] [mkDependency "B" "A" required];
       "B" := mkTaskNode "B" "second" "" pending [] [] [mkDependency "A" "B" required] ]} in
  for_each (visit 7 (build_graph tasks)) ["B"; "A"] (mkMarks ∅ ∅) = inl CycleDetected ∧
  has_cycle tasks.
Proof.
  intros tasks.
  pose proof (traversal_order_irrelevant tasks ["B"; "A"] 7) as H.
  assert (for_each (visit 7 (build_graph tasks)) ["B"; "A"] (mkMarks ∅ ∅)
          = inl CycleDetected) as Heq by (by vm_compute).
  rewrite Heq in H. split; [done|]. apply H.
  - assert (elements (dom (build_graph tasks)) = ["A"; "B"]) as -> by (by vm_compute).
    apply Permutation_swap.
  - vm_compute. lia.
Defined.

(** ** The messages of the exceptions *)

Lemma list_ascii_of_string_app (a b : string) :
  String.list_ascii_of_string (a ++ b) =
  (String.list_ascii_of_string a ++ String.list_ascii_of_string b)%list.
Proof. induction a as [|c a IH]; simpl; [done|]. by rewrite IH. Qed.

Lemma string_app_inv_tail (a b tail : string) : a ++ tail = b ++ tail → a = b.
Proof.
  intros H%(f_equal String.list_ascii_of_string).
  rewrite !list_ascii_of_string_app in H. apply List.app_inv_tail in H.
  apply (f_equal String.string_of_list_ascii) in H.
  by rewrite !String.string_of_list_ascii_of_string in H.
Qed.

Lemma exists_tail_not_found_tail (a b : string) :
  a ++ "' already exists." ≠ b ++ "' not found.".
Proof.
  intros H%(f_equal String.list_ascii_of_string).
  rewrite !list_ascii_of_string_app in H. apply (f_equal (@List.rev Ascii.ascii)) in H.
  rewrite !List.rev_app_distr in H. simpl in H. discriminate H.
Qed.

(** X15. All four failures of the task tools are raised as [ValueError]; the
    message alone tells them apart.  Two of these exceptions with the same
    message are the same failure about the same task id, whatever the ids
    are. *)
Theorem message_tells_failures_apart (e1 e2 : Exn) :
  e1 ≠ RecursionError → e2 ≠ RecursionError →
  message e1 = message e2 → e1 = e2.
Proof.
  intros H1 H2.
  destruct e1 as [a|a| | |], e2 as [b|b| | |]; simpl; intros H;
    try done; try discriminate H.
  - injection H as H. change (a ++ "' already exists." = b ++ "' already exists.") in H.
    by apply string_app_inv_tail in H as ->.
  - injection H as H. change (a ++ "' already exists." = b ++ "' not found.") in H.
    by apply exists_tail_not_found_tail in H.
  - injection H as H. change (a ++ "' not found." = b ++ "' already exists.") in H.
    symmetry in H. by apply exists_tail_not_found_tail in H.
  - injection H as H. change (a ++ "' not found." = b ++ "' not found.") in H.
    by apply string_app_inv_tail in H as ->.
Qed.

Lemma message_tells_failures_apart_witness :
  message (NotFound "A") = "Task 'A' not found." ∧
  (message (NotFound "A") = message (NotFound "A") → NotFound "A" = NotFound "A").
Proof.
  split; [reflexivity|].
  by apply (message_tells_failures_apart (NotFound "A") (NotFound "A")).
Defined.

(** * Properties of the meaning index *)

(** ** Ordered dictionaries and substrings *)

Lemma od_get_set {V} (key key' : string) (v : V) d :
  od_get key' (od_set key v d) = if decide (key = key') then Some v else od_get key' d.
Proof.
  induction d as [|[k v0] d IH]; simpl.
  - by repeat case_decide.
  - destruct (decide (k = key)) as [->|Hne]; simpl.
    + by repeat case_decide.
    + rewrite IH. repeat case_decide; congruence.
Qed.

Lemma od_get_pop {V} (key key' : string) (d : list (string * V)) :
  od_get key' (od_pop key d) = if decide (key = key') then None else od_get key' d.
Proof.
  unfold od_pop. induction d as [|[k v0] d IH]; simpl.
  - by case_decide.
  - rewrite filter_cons. simpl. destruct (decide (k ≠ key)) as [Hne|Heq%dec_stable]; simpl.
    + rewrite IH. repeat case_decide; congruence.
    + rewrite IH. repeat case_decide; congruence.
Qed.

Lemma od_get_None {V} (key : string) (d : list (string * V)) :
  od_get key d = None ↔ key ∉ d.*1.
Proof.
  induction d as [|[k v0] d IH]; simpl.
  - split; [intros _; apply not_elem_of_nil|done].
  - rewrite not_elem_of_cons, <-IH. case_decide; naive_solver.
Qed.

Lemma od_get_Some_elem {V} (key : string) (v : V) (d : list (string * V)) :
  NoDup d.*1 → od_get key d = Some v ↔ (key, v) ∈ d.
Proof.
  induction d as [|[k v0] d IH]; simpl; intros Hnd.
  - split; [done|]. by intros ?%elem_of_nil.
  - apply NoDup_cons in Hnd as [Hk Hnd]. rewrite elem_of_cons, <-(IH Hnd).
    case_decide as Hkey.
    + subst k. split; [by intros [= ->]; left|].
      intros [[= ->]|Hget]; [done|]. exfalso. apply Hk.
      apply list_elem_of_fmap. exists (key, v). split; [done|]. by apply IH.
    + split; [by right|]. by intros [[= ? ?]|?].
Qed.

Lemma od_set_fresh {V} (key : string) (v : V) (d : list (string * V)) :
  od_get key d = None → od_set key v d = (d ++ [(key, v)])%list.
Proof.
  induction d as [|[k v0] d IH]; simpl; [done|].
  case_decide; [done|]. intros Hget. by rewrite IH.
Qed.

Lemma od_set_keys {V} (key : string) (v v0 : V) (d : list (string * V)) :
  od_get key d = Some v0 → (od_set key v d).*1 = d.*1.
Proof.
  induction d as [|[k v1] d IH]; [done|]. cbn [od_set od_get].
  case_decide; [done|]. intros Hget. rewrite !fmap_cons. f_equal. by apply IH.
Qed.

Lemma od_pop_fresh {V} (key : string) (d : list (string * V)) :
  od_get key d = None → od_pop key d = d.
Proof.
  unfold od_pop. induction d as [|[k v0] d IH]; simpl; [done|].
  case_decide as Hk; [done|]. intros Hget. rewrite filter_cons_True by done. by rewrite IH.
Qed.

Lemma prefix_spec (needle s : string) :
  String.prefix needle s = true ↔ ∃ after, s = needle ++ after.
Proof.
  revert s. induction needle as [|a needle IH]; intros s; simpl.
  - destruct s; split; eauto.
  - destruct s as [|b s]; simpl.
    + split; [done|]. by intros [? ?].
    + destruct (Ascii.ascii_dec a b) as [->|Hne].
      * rewrite IH. split; intros [after H]; exists after; [by rewrite H|].
        by injection H.
      * split; [done|]. intros [after H]. by injection H as <-.
Qed.

Lemma contains_spec (needle s : string) :
  contains needle s = true ↔ substring_of needle s.
Proof.
  unfold substring_of. induction s as [|c s IH]; cbn [contains].
  - rewrite orb_false_r, prefix_spec. split.
    + intros [after H]. by exists "", after.
    + intros ([|? ?] & after & H); [by exists after|done].
  - rewrite orb_true_iff, prefix_spec, IH. split.
    + intros [[after H]|(before & after & H)].
      * by exists "", after.
      * exists (String c before), after. simpl. by rewrite H.
    + intros ([|c' before] & after & H).
      * left. by exists after.
      * right. exists before, after. simpl in H. by injection H.
Qed.

Lemma string_app_empty_r (s : string) : s ++ "" = s.
Proof.
  induction s as [|c s IH]; [done|].
  change (String c (s ++ "") = String c s). by rewrite IH.
Qed.

Lemma contains_refl (s : string) : contains s s = true.
Proof.
  apply contains_spec. exists "", "". change (s = s ++ "").
  by rewrite string_app_empty_r.
Qed.

Lemma contains_empty (s : string) : contains "" s = true.
Proof. apply contains_spec. by exists "", s. Qed.

(** ** The meaning tools *)

Section MeaningProperties.
Variable str_strip str_lower : string → string.

Local Abbreviation normalize := (_normalize_key str_strip str_lower).

(** X16. Reading back what was added: after [add_meaning], [get_meaning]
    under any phrase with the same normalised key returns exactly the entry
    just built, whether or not the key was there before (an older entry is
    replaced without error, its [created_at] included); under a phrase with
    another key it returns what it returned before. *)
Theorem get_meaning_after_add (phrase text : string)
    (sources : option (list string)) (context : option string) (created updated : string)
    (index : MeaningIndex) (asked : string) :
  get_meaning str_strip str_lower asked
    (add_meaning str_strip str_lower phrase text sources context created updated index) =
  if decide (normalize phrase = normalize asked)
  then Some (mkMeaningEntry phrase text (default [] sources) context created updated)
  else get_meaning str_strip str_lower asked index.
Proof. unfold get_meaning, add_meaning. cbv zeta. by rewrite od_get_set. Qed.

(** X17. [update_meaning] on a phrase whose key is missing raises the
    not-found error and leaves the index as it was.  On a key that is
    present it returns; the entry then keeps its [word_or_phrase] and
    [created_at], has the clock reading as [updated_at], and has each of
    meaning, sources and context replaced when supplied (an empty string
    included) and kept when omitted; the keys keep their order and the
    entries under other keys are untouched. *)
Theorem update_meaning_spec (phrase : string) (new_meaning : option string)
    (new_sources : option (list string)) (new_context : option string) (now : string)
    (index : MeaningIndex) :
  match get_meaning str_strip str_lower phrase index with
  | None =>
      update_meaning str_strip str_lower phrase new_meaning new_sources new_context
                     now index = (inl (MeaningNotFound phrase), index)
  | Some old =>
      ∃ index',
        update_meaning str_strip str_lower phrase new_meaning new_sources new_context
                       now index = (inr index', index') ∧
        get_meaning str_strip str_lower phrase index' =
          Some {| word_or_phrase := word_or_phrase old;
                  meaning := default (meaning old) new_meaning;
                  entry_sources := default (entry_sources old) new_sources;
                  entry_context := match new_context with
                                   | Some c => Some c
                                   | None => entry_context old
                                   end;
                  created_at := created_at old;
                  updated_at := now |} ∧
        index'.*1 = index.*1 ∧
        ∀ asked, normalize asked ≠ normalize phrase →
                 get_meaning str_strip str_lower asked index' =
                 get_meaning str_strip str_lower asked index
  end.
Proof.
  unfold update_meaning, get_meaning. cbv zeta.
  destruct (od_get (normalize phrase) index) as [old|] eqn:Hold; [|done].
  eexists. split; [reflexivity|]. split_and!.
  - rewrite od_get_set, decide_True by done.
    by destruct new_meaning, new_sources, new_context.
  - by eapply od_set_keys.
  - intros asked Hne. rewrite od_get_set. by rewrite decide_False.
Qed.

(** X18. [delete_meaning] on a phrase whose key is missing raises the
    not-found error and leaves the index as it was.  On a key that is
    present it returns, [get_meaning] under that key then finds nothing, and
    the entries under other keys are untouched. *)
Theorem delete_meaning_spec (phrase : string) (index : MeaningIndex) :
  match get_meaning str_strip str_lower phrase index with
  | None =>
      delete_meaning str_strip str_lower phrase index = (inl (MeaningNotFound phrase), index)
  | Some _ =>
      ∃ index',
        delete_meaning str_strip str_lower phrase index = (inr index', index') ∧
        get_meaning str_strip str_lower phrase index' = None ∧
        ∀ asked, normalize asked ≠ normalize phrase →
                 get_meaning str_strip str_lower asked index' =
                 get_meaning str_strip str_lower asked index
  end.
Proof.
  unfold delete_meaning, get_meaning. cbv zeta.
  destruct (od_get (normalize phrase) index) as [old|] eqn:Hold.
  - rewrite decide_False; [|intros Hn%od_get_None; by rewrite Hn in Hold].
    eexists. split; [reflexivity|]. split.
    + by rewrite od_get_pop, decide_True.
    + intros asked Hne. rewrite od_get_pop. by rewrite decide_False.
  - by rewrite decide_True by (by apply od_get_None).
Qed.

(** X19. Deleting undoes adding: when the key of a phrase is not in the
    index, [add_meaning] followed by [delete_meaning] on the same phrase
    gives back the index as it was, order included. *)
Theorem delete_undoes_add (phrase text : string) (sources : option (list string))
    (context : option string) (created updated : string) (index : MeaningIndex) :
  get_meaning str_strip str_lower phrase index = None →
  delete_meaning str_strip str_lower phrase
    (add_meaning str_strip str_lower phrase text sources context created updated index) =
  (inr index, index).
Proof.
  unfold delete_meaning, get_meaning, add_meaning. cbv zeta. intros Hnone.
  rewrite decide_False.
  - rewrite od_set_fresh by done. unfold od_pop.
    rewrite filter_app, filter_cons_False, filter_nil by (by intros ?).
    fold (od_pop (normalize phrase) index). rewrite od_pop_fresh by done.
    by rewrite app_nil_r.
  - intros Hn%od_get_None. by rewrite od_get_set, decide_True in Hn.
Qed.

End MeaningProperties.

Lemma delete_undoes_add_witness :
  let index : MeaningIndex :=
    [("dag", mkMeaningEntry "DAG" "a graph without cycles" [] None "t0" "t0")] in
  get_meaning strip_ascii lower_ascii " Task " index = None ∧
  delete_meaning strip_ascii lower_ascii " Task "
    (add_meaning strip_ascii lower_ascii " Task " "a unit of work" None None "t1" "t2" index) =
  (inr index, index).
Proof.
  split; [by vm_compute|]. apply delete_undoes_add. by vm_compute.
Defined.

Lemma od_set_elem {V} (key : string) (v : V) (d : list (string * V)) :
  (key, v) ∈ od_set key v d.
Proof.
  induction d as [|[k v0] d IH]; simpl; [left|].
  case_decide as Hk; [subst k; left|by right].
Qed.

Section SearchProperties.
Variable str_strip str_lower : string → string.

Local Abbreviation normalize := (_normalize_key str_strip str_lower).

(** X20. On an index without repeated keys, [search_meanings] returns exactly
    the entries whose key, or whose meaning in lower case, has the normalised
    query as a contiguous part, and it returns them in the order of the
    index. *)
Theorem search_meanings_spec (query : string) (index : MeaningIndex) :
  NoDup index.*1 →
  (∀ entry,
     entry ∈ search_meanings str_strip str_lower query index ↔
     ∃ key, od_get key index = Some entry ∧
            (substring_of (normalize query) key ∨
             substring_of (normalize query) (str_lower (meaning entry)))) ∧
  search_meanings str_strip str_lower query index `sublist_of` index.*2.
Proof.
  intros Hnd. unfold search_meanings. cbv zeta. split.
  - intros entry. rewrite list_elem_of_fmap. split.
    + intros ([key e] & -> & [Hhit Hin]%list_elem_of_filter). simpl in *.
      exists key. split; [by apply od_get_Some_elem|].
      apply Is_true_true, orb_true_iff in Hhit. by rewrite <-!contains_spec.
    + intros (key & Hget%od_get_Some_elem & Hhit); [|done].
      exists (key, entry). split; [done|]. apply list_elem_of_filter. split; [|done].
      simpl. apply Is_true_true, orb_true_iff. by rewrite !contains_spec.
  - apply fmap_sublist, sublist_filter.
Qed.

(** X21. An entry can be found by the phrase it was added under: right after
    [add_meaning], [search_meanings] with the same phrase returns a list that
    holds the entry just built. *)
Theorem search_finds_added_entry (phrase text : string) (sources : option (list string))
    (context : option string) (created updated : string) (index : MeaningIndex) :
  mkMeaningEntry phrase text (default [] sources) context created updated ∈
  search_meanings str_strip str_lower phrase
    (add_meaning str_strip str_lower phrase text sources context created updated index).
Proof.
  unfold search_meanings, add_meaning. cbv zeta. apply list_elem_of_fmap.
  eexists (normalize phrase, _). split; [reflexivity|].
  apply list_elem_of_filter. split; [|apply od_set_elem].
  simpl. by rewrite contains_refl.
Qed.

(** X22. A query that normalises to the empty string, such as a blank one,
    returns every entry of the index, in order. *)
Theorem search_meanings_blank_query (query : string) (index : MeaningIndex) :
  normalize query = "" →
  search_meanings str_strip str_lower query index = index.*2.
Proof.
  intros Hq. unfold search_meanings. cbv zeta. rewrite Hq. f_equal.
  induction index as [|item index IH]; [done|].
  rewrite filter_cons_True; [by rewrite IH|].
  by rewrite contains_empty.
Qed.

End SearchProperties.

Lemma search_meanings_spec_witness :
  let index : MeaningIndex :=
    [("dag", mkMeaningEntry "DAG" "A graph without cycles" [] None "t0" "t0");
     ("task", mkMeaningEntry "Task" "a unit of work" [] None "t1" "t1")] in
  search_meanings strip_ascii lower_ascii " GRAPH " index =
    [mkMeaningEntry "DAG" "A graph without cycles" [] None "t0" "t0"] ∧
  search_meanings strip_ascii lower_ascii " GRAPH " index `sublist_of` index.*2.
Proof.
  intros index. split; [by vm_compute|].
  apply (search_meanings_spec strip_ascii lower_ascii " GRAPH " index).
  apply (bool_decide_unpack _). by vm_compute.
Defined.

Lemma search_meanings_blank_query_witness :
  let index : MeaningIndex :=
    [("dag", mkMeaningEntry "DAG" "A graph without cycles" [] None "t0" "t0");
     ("task", mkMeaningEntry "Task" "a unit of work" [] None "t1" "t1")] in
  search_meanings strip_ascii lower_ascii "   " index = index.*2.
Proof.
  apply search_meanings_blank_query. by vm_compute.
Defined.

(** * Properties of the history log *)

Lemma append_history_item_numbered role content tool_name now (history : list HistoryItem) :
  (∀ i item, history !! i = Some item → item_id item = "history-" ++ pretty (i + 1)) →
  ∀ i item,
    (append_history_item role content tool_name now history).2 !! i = Some item →
    item_id item = "history-" ++ pretty (i + 1).
Proof.
  intros Hnum i item. unfold append_history_item. cbv zeta.
  destruct (parse_role role) as [r|]; simpl; [|by apply Hnum].
  intros [Hold|[Hi Hnew]]%lookup_app_Some; [by apply Hnum|].
  destruct (i - length history) as [|n] eqn:Hn; [|by destruct n].
  injection Hnew as <-. simpl. do 2 f_equal. lia.
Qed.

Lemma append_history_item_length role content tool_name now (history : list HistoryItem) :
  length (append_history_item role content tool_name now history).2 =
  length history + (if parse_role role is Some _ then 1 else 0).
Proof.
  unfold append_history_item. cbv zeta.
  destruct (parse_role role); simpl; [|lia]. by rewrite length_app.
Qed.

Lemma run_appends_numbered calls (history : list HistoryItem) :
  (∀ i item, history !! i = Some item → item_id item = "history-" ++ pretty (i + 1)) →
  ∀ i item, run_appends calls history !! i = Some item →
            item_id item = "history-" ++ pretty (i + 1).
Proof.
  revert history. induction calls as [|c calls IH]; intros history Hnum; [done|].
  change (run_appends (c :: calls) history) with
    (run_appends calls (append_history_item (append_role c) (append_content c)
                          (append_tool_name c) (append_now c) history).2).
  apply IH. by apply append_history_item_numbered.
Qed.

Lemma run_appends_length calls (history : list HistoryItem) :
  length (run_appends calls history) =
  length history + length (filter (λ c, is_Some (parse_role (append_role c))) calls).
Proof.
  revert history. induction calls as [|c calls IH]; intros history; [simpl; lia|].
  change (run_appends (c :: calls) history) with
    (run_appends calls (append_history_item (append_role c) (append_content c)
                          (append_tool_name c) (append_now c) history).2).
  rewrite IH, append_history_item_length, filter_cons.
  destruct (parse_role (append_role c)) eqn:Hrole.
  - rewrite decide_True by eauto. simpl. lia.
  - rewrite decide_False by (by intros [? ?]). lia.
Qed.

(** X23. In a history built from the empty one by calls of
    [append_history_item], the item at position i (counting from 0) has the
    id "history-" followed by i + 1 in decimal, so no two items share an id;
    and the history has one item per call whose role was one of user,
    assistant and tool, the other calls having raised without appending. *)
Theorem history_ids_sequential (calls : list Append) :
  let history := run_appends calls [] in
  (∀ i item, history !! i = Some item → item_id item = "history-" ++ pretty (i + 1)) ∧
  NoDup (item_id <$> history) ∧
  length history =
    length (filter (λ c, is_Some (parse_role (append_role c))) calls).
Proof.
  cbv zeta.
  assert (∀ i item, run_appends calls [] !! i = Some item →
                    item_id item = "history-" ++ pretty (i + 1)) as Hnum.
  { apply run_appends_numbered. intros i item H. by rewrite lookup_nil in H. }
  split_and!; [done| |by rewrite run_appends_length].
  apply NoDup_alt. intros i j x Hi Hj.
  rewrite list_lookup_fmap in Hi, Hj.
  destruct (run_appends calls [] !! i) as [a|] eqn:Ha; [|done].
  destruct (run_appends calls [] !! j) as [b|] eqn:Hb; [|done].
  simpl in Hi, Hj. injection Hi as <-. injection Hj as Hab.
  rewrite (Hnum i a Ha), (Hnum j b Hb) in Hab.
  apply (inj (String.app "history-")), (inj pretty) in Hab. lia.
Qed.

(** * Properties of the gateway configuration *)

(** X24. [_load_gateway_model] fails for a missing base URL when
    PYDANTIC_AI_GATEWAY_BASE_URL is unset or empty, whatever the keys are.
    Otherwise the key it passes on is the first one that is set and not
    empty among PYDANTIC_AI_GATEWAY_API_KEY, PYDANTIC_AI_BYOK_API_KEY and
    OPENAI_API_KEY, in this order, and it fails for missing credentials when
    there is none.  A model that it returns has a base URL and a key that
    are not empty. *)
Theorem load_gateway_model_precedence (env : gmap string string) :
  _load_gateway_model env =
    match first_set [env !! "PYDANTIC_AI_GATEWAY_BASE_URL"] with
    | None => inl MissingBaseUrl
    | Some base =>
        match first_set [env !! "PYDANTIC_AI_GATEWAY_API_KEY";
                         env !! "PYDANTIC_AI_BYOK_API_KEY";
                         env !! "OPENAI_API_KEY"] with
        | None => inl MissingCredentials
        | Some key => inr (mkGatewayModel "gpt-4.1-mini" base key)
        end
    end ∧
  ∀ model, _load_gateway_model env = inr model →
           base_url model ≠ "" ∧ api_key model ≠ "".
Proof.
  unfold _load_gateway_model, first_set, getenv_or. cbv zeta.
  destruct (env !! "PYDANTIC_AI_GATEWAY_BASE_URL") as [[|? ?]|],
           (env !! "PYDANTIC_AI_GATEWAY_API_KEY") as [[|? ?]|],
           (env !! "PYDANTIC_AI_BYOK_API_KEY") as [[|? ?]|],
           (env !! "OPENAI_API_KEY") as [[|? ?]|]; simpl;
    (split; [done|]); intros model [= <-]; done.
Qed.

(** * Missing ids and untouched records *)

(** X25. [update_task] on an id without a record raises the not-found error
    and leaves the map as it was.  On an id with a record, whether the call
    returns or raises the cycle error, it adds and removes no key and leaves
    the record under every other key untouched. *)
Theorem update_task_frame (py : Interpreter) (tasks : TaskMap) (task_id : string)
    (new_title new_description : option string) (new_status : option TaskStatus)
    (new_dependencies : option (list Dependency)) (new_sources : option (list Source))
    (new_steps : option (list Step)) :
  let outcome := update_task py task_id new_title new_description new_status new_dependencies
                             new_sources new_steps tasks in
  (tasks !! task_id = None → outcome = (inl (NotFound task_id), tasks)) ∧
  dom outcome.2 = dom tasks ∧
  ∀ other, other ≠ task_id → outcome.2 !! other = tasks !! other.
Proof.
  cbv zeta. rewrite update_task_eq.
  destruct (tasks !! task_id) as [task|] eqn:Htask; [|done]. cbv zeta.
  split; [done|].
  match goal with |- context [validate_acyclic py ?m] => destruct (validate_acyclic py m) end;
    simpl; (split; [rewrite dom_insert_L; apply elem_of_dom_2 in Htask; set_solver|]);
    intros other Hne; by rewrite lookup_insert_ne.
Qed.

(** X26. [delete_task] on an id without a record raises the not-found error
    and leaves the map as it was, also with [cascade]: dependencies that name
    the missing id as their [from_task] are not stripped. *)
Theorem delete_task_missing (tasks : TaskMap) (task_id : string) (cascade : bool) :
  tasks !! task_id = None →
  delete_task task_id cascade tasks = (inl (NotFound task_id), tasks).
Proof.
  intros Hmissing. rewrite delete_task_eq.
  by rewrite decide_True by (by apply not_elem_of_dom).
Qed.

Lemma delete_task_missing_witness :
  let tasks : TaskMap :=
    {[ "B" := mkTaskNode "B" "second" "" pending [] [] [mkDependency "gone" "B" required] ]} in
  delete_task "gone" true tasks = (inl (NotFound "gone"), tasks) ∧
  edge tasks "gone" "B".
Proof.
  intros tasks. split.
  - apply delete_task_missing. by vm_compute.
  - exists "B", (mkTaskNode "B" "second" "" pending [] [] [mkDependency "gone" "B" required]),
      (mkDependency "gone" "B" required).
    split; [by vm_compute|]. split; [by left|done].
Defined.
